(** * cachehash: a fixed-capacity LRU cache over a Judy hash index

    Shallow embedding of [src/cachehash.c] and of the properties its
    specification states about it.

    Modelling conventions.
    - A [void *] / [Word_t] is a [ptr]: the null pointer, the address of
      slot [i] of the cache's arena ([&nodes[i]]), or any other non-null
      word (a caller's opaque handle).  Only arena slots can be read or
      written as a [node_t]; dereferencing anything else is outside every
      object the cache owns and is reported as [Fault].
    - A key buffer with its length ([void *key, size_t keylen]) is one byte
      string; [keylen] is its length, so [assert(keylen)] is a test for the
      empty string.  A key pointer of a slot that is NULL is [None].
    - [size_t] counters are [Z] with the wrap-around modulo [2^64] written
      out.
    - [malloc]/[calloc] are assumed to succeed.
    - Every function is a state transformer over the [cachehash] struct
      with three outcomes: it returns, an [assert] fails ([Abort]), or it
      accesses memory it does not own ([Fault]).
    - JudyHS is a library outside the repository; its four macros are
      modelled after the Judy manual, as operations on a finite map.

    Contents: the structs and the monad; the functions of [cachehash.c]
    in the order of the source; clients and predicates; reasoning rules;
    then one section per property, C1 to C10. *)

From Stdlib Require Import ZArith String List Lia.
From stdpp Require Import base option list gmap strings.

Set Warnings "-clear-no-such-hyp".

(** ** Pointers and words *)

Inductive ptr : Type :=
| NULL
| Slot (i : Z)      (* &nodes[i], also for i outside the arena *)
| Handle (h : Z).   (* any other non-null word *)

#[global] Instance ptr_eq_dec : EqDecision ptr.
Proof. solve_decision. Defined.

Definition is_null (p : ptr) : bool :=
  match p with NULL => true | _ => false end.

(** ** The Judy hash index (JudyHS, an external library)

    A JudyHS array is a finite map from byte strings to words; the empty
    array is the NULL root.  [JHSG] looks a key up, [JHSD] deletes it and
    says whether it was there, [JHSI] finds or inserts it (a new entry
    holds 0) and hands back the address of its value word.  [JHSI] and
    [JHSD] work on the root variable they are given and may change it.
    [JDangling] is a root that an insertion through a copy has
    invalidated. *)

Inductive Pvoid_t : Type :=
| JArray (m : gmap string ptr)
| JDangling.

(** ** The structs *)

Record node_t : Type := mk_node {
  next : ptr;
  prev : ptr;
  key : option string;   (* key and keylen *)
  data : ptr
}.

Definition calloc_node : node_t :=
  {| next := NULL; prev := NULL; key := None; data := NULL |}.

Definition set_next (v : ptr) (n : node_t) : node_t :=
  {| next := v; prev := prev n; key := key n; data := data n |}.
Definition set_prev (v : ptr) (n : node_t) : node_t :=
  {| next := next n; prev := v; key := key n; data := data n |}.
Definition set_key (v : option string) (n : node_t) : node_t :=
  {| next := next n; prev := prev n; key := v; data := data n |}.
Definition set_data (v : ptr) (n : node_t) : node_t :=
  {| next := next n; prev := prev n; key := key n; data := v |}.

(** The bytes [JHSD] is handed for a slot: [last->key] with length
    [last->keylen], the empty string for a cleared slot. *)
Definition key_bytes (n : node_t) : string := default EmptyString (key n).

(** [struct cachehash_s].  [judy] is the [Pvoid_t *] field: [None] when
    the field is NULL, otherwise the root it points to.  [malloced] is
    the arena [start] and [end_] point into.  A callback is identified by
    a number. *)
Record cachehash : Type := mk_cachehash {
  judy : option Pvoid_t;
  malloced : list node_t;
  start : ptr;
  end_ : ptr;
  maxsize : Z;
  currsize : Z;
  evict_cb : option nat
}.

Definition with_judy (v : option Pvoid_t) (ch : cachehash) : cachehash :=
  {| judy := v; malloced := malloced ch; start := start ch; end_ := end_ ch;
     maxsize := maxsize ch; currsize := currsize ch; evict_cb := evict_cb ch |}.
Definition with_malloced (v : list node_t) (ch : cachehash) : cachehash :=
  {| judy := judy ch; malloced := v; start := start ch; end_ := end_ ch;
     maxsize := maxsize ch; currsize := currsize ch; evict_cb := evict_cb ch |}.
Definition with_start (v : ptr) (ch : cachehash) : cachehash :=
  {| judy := judy ch; malloced := malloced ch; start := v; end_ := end_ ch;
     maxsize := maxsize ch; currsize := currsize ch; evict_cb := evict_cb ch |}.
Definition with_end (v : ptr) (ch : cachehash) : cachehash :=
  {| judy := judy ch; malloced := malloced ch; start := start ch; end_ := v;
     maxsize := maxsize ch; currsize := currsize ch; evict_cb := evict_cb ch |}.
Definition with_currsize (v : Z) (ch : cachehash) : cachehash :=
  {| judy := judy ch; malloced := malloced ch; start := start ch; end_ := end_ ch;
     maxsize := maxsize ch; currsize := v; evict_cb := evict_cb ch |}.

(** ** Outcomes and the state monad of the C functions *)

Inductive outcome (A : Type) : Type :=
| Ret (a : A)
| Abort         (* a failed assert *)
| Fault.        (* undefined behaviour: an access outside the cache's
                   own memory, or a signed overflow *)
Arguments Ret {A} a.
Arguments Abort {A}.
Arguments Fault {A}.

Definition M (A : Type) : Type := cachehash → outcome (A * cachehash).

#[global] Instance M_ret : MRet M := λ A a ch, Ret (a, ch).
#[global] Instance M_bind : MBind M := λ A B f m ch,
  match m ch with
  | Ret (a, ch') => f a ch'
  | Abort => Abort
  | Fault => Fault
  end.

Definition abort {A} : M A := λ _, Abort.
Definition fault {A} : M A := λ _, Fault.
Definition assert (b : bool) : M unit := if b then mret tt else abort.
Definition gets {A} (f : cachehash → A) : M A := λ ch, Ret (f ch, ch).
Definition modify (f : cachehash → cachehash) : M unit := λ ch, Ret (tt, f ch).

(** Index of the arena slot a pointer designates, if it designates one. *)
Definition slot_of (arena : list node_t) (p : ptr) : option nat :=
  match p with
  | Slot i =>
      if bool_decide (0 ≤ i < Z.of_nat (length arena))%Z
      then Some (Z.to_nat i) else None
  | _ => None
  end.

(** [p->field] as an rvalue. *)
Definition rd {A} (field : node_t → A) (p : ptr) : M A := λ ch,
  match slot_of (malloced ch) p with
  | Some i =>
      match malloced ch !! i with
      | Some n => Ret (field n, ch)
      | None => Fault
      end
  | None => Fault
  end.

(** [p->field = v]. *)
Definition wr (upd : node_t → node_t) (p : ptr) : M unit := λ ch,
  match slot_of (malloced ch) p with
  | Some i => Ret (tt, with_malloced (alter upd i (malloced ch)) ch)
  | None => Fault
  end.

(** [*ch->judy] as an rvalue: the field is dereferenced, and a root that
    was invalidated cannot be used. *)
Definition rd_judy : M (gmap string ptr) := λ ch,
  match judy ch with
  | Some (JArray m) => Ret (m, ch)
  | Some JDangling => Fault
  | None => Fault
  end.

(** [*ch->judy = j]. *)
Definition wr_judy (m : gmap string ptr) : M unit := λ ch,
  match judy ch with
  | Some _ => Ret (tt, with_judy (Some (JArray m)) ch)
  | None => Fault
  end.

Definition two64 : Z := 2 ^ 64.

(** ** [cachehash_init] *)

(** Body of the loop over the middle nodes. *)
Definition link_middle (nodes : list node_t) (i : nat) : list node_t :=
  alter (set_next (Slot (Z.of_nat i + 1))) i
    (alter (set_prev (Slot (Z.of_nat i - 1))) i nodes).

(** The struct is zeroed by [memset]; [judy] and [evict_cb] are not
    assigned afterwards, and the parameter [cb] is not used.  The loop
    counter is an [int]: it overflows when [maxitems] exceeds [2^31]. *)
Definition cachehash_init (maxitems : Z) (cb : option nat) : outcome cachehash :=
  if bool_decide (maxitems ≤ 0)%Z then Abort
  else if bool_decide (2 ^ 31 < maxitems)%Z then Fault
  else
    let nodes := replicate (Z.to_nat maxitems) calloc_node in
    let nodes := alter (set_next (Slot 1)) 0%nat nodes in
    let nodes := foldl link_middle nodes (seq 1 (Z.to_nat maxitems - 2)) in
    let nodes :=
      alter (set_prev (Slot (maxitems - 2))) (Z.to_nat (maxitems - 1)) nodes in
    Ret {| judy := None;
           malloced := nodes;
           start := Slot 0;
           end_ := Slot (maxitems - 1);
           maxsize := maxitems;
           currsize := 0;
           evict_cb := None |}.

(** ** The static helpers *)

Definition eviction_needed : M bool :=
  gets (λ ch, bool_decide (currsize ch = maxsize ch)).

Definition evict : M ptr :=
  last ← gets end_;
  j ← rd_judy;
  k ← rd key_bytes last;
  assert (bool_decide (is_Some (j !! k)));;      (* JHSD; assert(rc) *)
  wr_judy (delete k j);;
  retv ← rd data last;
  wr (set_data NULL) last;;
  wr (set_key None) last;;
  modify (λ ch, with_currsize ((currsize ch - 1) mod two64) ch);;
  mret retv.

Definition use (n : ptr) : M unit :=
  assert (negb (is_null n));;
  p ← rd prev n;
  if is_null p then mret tt
  else
    nx ← rd next n;
    wr (set_next nx) p;;                          (* n->prev->next = n->next *)
    nx ← rd next n;
    (if is_null nx return M unit
     then modify (with_end p) else wr (set_prev p) nx);;
    s ← gets start;
    wr (set_next s) n;;
    modify (with_start n);;
    wr (set_prev NULL) n.

(** [JHSG] yields the address of the value word, or NULL when the key is
    not in the array; the address is dereferenced without a test. *)
Definition judy_get (k : string) : M ptr :=
  assert (negb (String.eqb k EmptyString));;
  j ← rd_judy;
  let v_ := j !! k in
  wr_judy j;;
  match v_ with
  | Some w => mret w
  | None => fault
  end.

(** ** The public operations *)

Definition cachehash_has (k : string) : M ptr :=
  assert (negb (String.eqb k EmptyString));;
  n ← judy_get k;
  if is_null n then mret NULL else rd data n.

Definition cachehash_get (k : string) : M ptr :=
  assert (negb (String.eqb k EmptyString));;
  n ← judy_get k;
  if is_null n then mret NULL else (use n;; rd data n).

Definition cachehash_evict_if_full : M ptr :=
  needed ← eviction_needed;
  if (needed : bool) then evict else mret NULL.

Section Put.

(** Whether [JudyHSIns] moves the root of a non-empty array when it adds
    this key.  That is decided inside the Judy library. *)
Variable root_moves : gmap string ptr → string → bool.

(** [JHSI] on the local copy [j] of the root, then the assertion and the
    store through [v_].  The copy is not stored back to [*ch->judy]:
    an entry added to the empty array is reachable from [j] only; an
    entry that exists is written in place; an entry added to a
    non-empty array is seen through [*ch->judy] unless the root moved,
    which leaves [*ch->judy] dangling. *)
Definition put_index (k : string) (value : ptr) : M unit :=
  j ← rd_judy;
  match j !! k with
  | Some w =>
      assert (is_null w);;
      wr_judy (<[k := value]> j)
  | None =>
      if bool_decide (j = ∅) then mret tt
      else if root_moves j k then modify (with_judy (Some JDangling))
      else wr_judy (<[k := value]> j)
  end.

(** The result lists the calls made to the eviction callback. *)
Definition cachehash_put (k : string) (value : ptr) : M (list (nat * ptr)) :=
  assert (negb (String.eqb k EmptyString));;
  evicted ← cachehash_evict_if_full;
  cb ← gets evict_cb;
  let calls :=
    match cb with
    | Some f => if is_null evicted then [] else [(f, evicted)]
    | None => []
    end in
  n ← gets end_;
  wr (set_key (Some k)) n;;
  wr (set_data value) n;;
  use n;;
  modify (λ ch, with_currsize ((currsize ch + 1) mod two64) ch);;
  put_index k value;;
  mret calls.

End Put.

(** [cachehash_free]: the walk [while (n->next)] from [ch->start].  The
    arena is only read.  [None] means the fuel ran out. *)
Fixpoint free_walk (fuel : nat) (arena : list node_t) (cb : option nat)
    (n : ptr) : option (outcome (list (nat * ptr))) :=
  match fuel with
  | O => None
  | S fuel' =>
      match slot_of arena n ≫= (arena !!.) with
      | None => Some Fault
      | Some nd =>
          if is_null (next nd) then Some (Ret [])
          else
            let here :=
              match key nd, cb with
              | Some _, Some f => [(f, data nd)]
              | _, _ => []
              end in
            match free_walk fuel' arena cb (next nd) with
            | Some (Ret rest) => Some (Ret (here ++ rest))
            | r => r
            end
      end
  end.

Definition cachehash_free (fuel : nat) (ch : cachehash) (cb : option nat)
    : option (outcome (list (nat * ptr))) :=
  match judy ch with
  | Some (JArray _) => free_walk fuel (malloced ch) cb (start ch)
  | _ => Some Fault
  end.

(** ** Clients: sequences of operations *)

Inductive op : Type :=
| Has (k : string)
| Get (k : string)
| Put (k : string) (value : ptr)
| EvictIfFull.

Section Run.

Variable root_moves : gmap string ptr → string → bool.

Definition run_op (o : op) : M unit :=
  match o with
  | Has k => cachehash_has k;; mret tt
  | Get k => cachehash_get k;; mret tt
  | Put k v => cachehash_put root_moves k v;; mret tt
  | EvictIfFull => cachehash_evict_if_full;; mret tt
  end.

Fixpoint run (ops : list op) : M unit :=
  match ops with
  | [] => mret tt
  | o :: ops' => run_op o;; run ops'
  end.

End Run.

(** [has] called [n] times in a row. *)
Fixpoint has_repeat (n : nat) (k : string) : M unit :=
  match n with
  | O => mret tt
  | S n' => cachehash_has k;; has_repeat n' k
  end.

(** ** Predicates on cache states *)

(** The word the index holds for a key, when the index can be read. *)
Definition index_lookup (ch : cachehash) (k : string) : option ptr :=
  match judy ch with
  | Some (JArray m) => m !! k
  | _ => None
  end.

Definition size_ok (ch : cachehash) : Prop :=
  (0 < maxsize ch < two64)%Z ∧ (0 ≤ currsize ch ≤ maxsize ch)%Z.

(** A link that can be followed: NULL or the address of an arena slot. *)
Definition link_ok (arena : list node_t) (p : ptr) : Prop :=
  p = NULL ∨ is_Some (slot_of arena p).

(** The list can be walked: [ch->end] is a slot, and every [next] and
    [prev] in the arena can be followed. *)
Definition links_ok (ch : cachehash) : Prop :=
  is_Some (slot_of (malloced ch) (end_ ch))
  ∧ Forall (λ n, link_ok (malloced ch) (next n) ∧ link_ok (malloced ch) (prev n))
      (malloced ch).

(** What a computation keeps of the struct besides the arena contents and
    the list ends. *)
Definition same_frame (ch ch' : cachehash) : Prop :=
  judy ch' = judy ch ∧ maxsize ch' = maxsize ch ∧ currsize ch' = currsize ch
  ∧ evict_cb ch' = evict_cb ch ∧ length (malloced ch') = length (malloced ch).

(** An update of a slot that leaves its two links alone. *)
Definition keeps_links (f : node_t → node_t) : Prop :=
  ∀ n, next (f n) = next n ∧ prev (f n) = prev n.

(** The key held by the slot [ch->end] points to. *)
Definition tail_key (ch : cachehash) : option string :=
  match slot_of (malloced ch) (end_ ch) ≫= (malloced ch !!.) with
  | Some n => key n
  | None => None
  end.

(** ** Concrete caches used in the examples *)

Definition no_moves : gmap string ptr → string → bool := λ _ _, false.

(** What [cachehash_init 2 cb] returns, for every [cb]. *)
Definition created2 : cachehash :=
  {| judy := None;
     malloced := [ {| next := Slot 1; prev := NULL; key := None; data := NULL |};
                   {| next := NULL; prev := Slot 0; key := None; data := NULL |} ];
     start := Slot 0; end_ := Slot 1; maxsize := 2; currsize := 0;
     evict_cb := None |}.

(** The same cache if its [judy] field pointed to an empty array. *)
Definition created2_indexed : cachehash :=
  with_judy (Some (JArray ∅)) created2.

(** A full two-slot cache as the design intends it: ["B"] was used last
    and is at the head, ["A"] is at the tail, and the index knows both
    slots. *)
Definition filled2 : cachehash :=
  {| judy := Some (JArray (<["A" := Slot 0]> (<["B" := Slot 1]> ∅)));
     malloced :=
       [ {| next := NULL; prev := Slot 1; key := Some "A"; data := Handle 1 |};
         {| next := Slot 0; prev := NULL; key := Some "B"; data := Handle 2 |} ];
     start := Slot 1; end_ := Slot 0; maxsize := 2; currsize := 2;
     evict_cb := None |}.

(** What [cachehash_init 3 cb] returns, for every [cb]. *)
Definition created3 : cachehash :=
  {| judy := None;
     malloced := [ {| next := Slot 1; prev := NULL; key := None; data := NULL |};
                   {| next := Slot 2; prev := Slot 0; key := None; data := NULL |};
                   {| next := NULL; prev := Slot 1; key := None; data := NULL |} ];
     start := Slot 0; end_ := Slot 2; maxsize := 3; currsize := 0;
     evict_cb := None |}.

Definition created3_indexed : cachehash :=
  with_judy (Some (JArray ∅)) created3.

Definition always_moves : gmap string ptr → string → bool := λ _ _, true.

(** ** Further predicates and caches *)

(** The calls [put] makes to [ch->evict_cb] for what [evict_if_full]
    handed back: [if (evicted && ch->evict_cb)]. *)
Definition callback_calls (cb : option nat) (evicted : ptr)
    : list (nat * ptr) :=
  match cb with
  | Some f => if is_null evicted then [] else [(f, evicted)]
  | None => []
  end.

(** Slot [i] as [cachehash_init] links it in an arena of [maxitems ≥ 2]
    slots. *)
Definition fresh_node (maxitems i : Z) : node_t :=
  {| next := if bool_decide (i = maxitems - 1)%Z then NULL else Slot (i + 1);
     prev := if bool_decide (i = 0)%Z then NULL else Slot (i - 1);
     key := None;
     data := NULL |}.

(** What one turn of the loop of [cachehash_init] does to node [j]. *)
Definition linked (j : nat) (nd : node_t) : node_t :=
  set_next (Slot (Z.of_nat j + 1)) (set_prev (Slot (Z.of_nat j - 1)) nd).

(** Following [next] from [p] visits the slots [nds], in this order, and
    then the slot [last], whose [next] is NULL. *)
Inductive next_path (arena : list node_t)
    : ptr → list node_t → node_t → Prop :=
| next_path_last p i nd :
    slot_of arena p = Some i → arena !! i = Some nd → next nd = NULL →
    next_path arena p [] nd
| next_path_step p i nd nds last :
    slot_of arena p = Some i → arena !! i = Some nd → next nd ≠ NULL →
    next_path arena (next nd) nds last →
    next_path arena p (nd :: nds) last.

(** The calls of the release callback for the occupied slots among
    [nds]. *)
Definition release_calls (cb : option nat) (nds : list node_t)
    : list (nat * ptr) :=
  nd ← nds;
  match key nd, cb with
  | Some _, Some f => [(f, data nd)]
  | _, _ => []
  end.

(** Every pointer the list operations follow is a slot or NULL. *)
Definition list_ok (ch : cachehash) : Prop :=
  links_ok ch ∧ is_Some (slot_of (malloced ch) (start ch)).

(** [filled2] with an eviction callback in the struct. *)
Definition filled2_cb : cachehash :=
  {| judy := judy filled2; malloced := malloced filled2;
     start := start filled2; end_ := end_ filled2;
     maxsize := maxsize filled2; currsize := currsize filled2;
     evict_cb := Some 7%nat |}.

(** [filled2] with an empty index. *)
Definition filled2_unindexed : cachehash :=
  with_judy (Some (JArray ∅)) filled2.

(** [created2_indexed] after one [put] of ["A"]. *)
Definition half_filled2 : cachehash :=
  {| judy := Some (JArray ∅);
     malloced :=
       [ {| next := NULL; prev := NULL; key := None; data := NULL |};
         {| next := Slot 0; prev := NULL; key := Some "A"; data := Handle 1 |} ];
     start := Slot 1; end_ := Slot 0; maxsize := 2; currsize := 1;
     evict_cb := None |}.

(** * Reasoning rules for the monad *)

Lemma bind_Ret {A B} (m : M A) (f : A → M B) ch r :
  (m ≫= f) ch = Ret r ↔ ∃ a ch', m ch = Ret (a, ch') ∧ f a ch' = Ret r.
Proof.
  unfold mbind, M_bind.
  destruct (m ch) as [[a ch']| |]; naive_solver.
Qed.

Lemma mret_Ret {A} (a b : A) ch ch' :
  (mret a : M A) ch = Ret (b, ch') ↔ b = a ∧ ch' = ch.
Proof. unfold mret, M_ret. naive_solver. Qed.

Lemma assert_Ret b ch u ch' :
  assert b ch = Ret (u, ch') ↔ b = true ∧ ch' = ch.
Proof. destruct b, u; unfold assert, abort, mret, M_ret; naive_solver. Qed.

Lemma gets_Ret {A} (f : cachehash → A) ch a ch' :
  gets f ch = Ret (a, ch') ↔ a = f ch ∧ ch' = ch.
Proof. unfold gets. naive_solver. Qed.

Lemma modify_Ret f ch u ch' :
  modify f ch = Ret (u, ch') ↔ ch' = f ch.
Proof. destruct u. unfold modify. naive_solver. Qed.

Lemma rd_Ret {A} (field : node_t → A) p ch a ch' :
  rd field p ch = Ret (a, ch') ↔
  ch' = ch ∧ ∃ i n, slot_of (malloced ch) p = Some i
                    ∧ malloced ch !! i = Some n ∧ a = field n.
Proof.
  unfold rd. destruct (slot_of _ p) as [i|]; [|naive_solver].
  destruct (malloced ch !! i) as [n|] eqn:E; naive_solver.
Qed.

Lemma wr_Ret upd p ch u ch' :
  wr upd p ch = Ret (u, ch') ↔
  ∃ i, slot_of (malloced ch) p = Some i
       ∧ ch' = with_malloced (alter upd i (malloced ch)) ch.
Proof.
  destruct u. unfold wr. destruct (slot_of _ p) as [i|]; naive_solver.
Qed.

Lemma rd_judy_Ret ch m ch' :
  rd_judy ch = Ret (m, ch') ↔ ch' = ch ∧ judy ch = Some (JArray m).
Proof.
  unfold rd_judy. destruct (judy ch) as [[m'|]|]; naive_solver.
Qed.

Lemma wr_judy_Ret m ch u ch' :
  wr_judy m ch = Ret (u, ch') ↔
  is_Some (judy ch) ∧ ch' = with_judy (Some (JArray m)) ch.
Proof.
  destruct u. unfold wr_judy, is_Some. destruct (judy ch); naive_solver.
Qed.

(** Invert one step of a computation that is known to return. *)
Ltac inv_M1 :=
  match goal with
  | H : (_ ≫= _) _ = Ret _ |- _ =>
      let a := fresh "a" in let c := fresh "ch" in let E := fresh "E" in
      apply bind_Ret in H as (a & c & E & H)
  | H : mret _ _ = Ret (_, _) |- _ => apply mret_Ret in H as [? ?]
  | H : assert _ _ = Ret (_, _) |- _ => apply assert_Ret in H as [? ?]
  | H : gets _ _ = Ret (_, _) |- _ => apply gets_Ret in H as [? ?]
  | H : modify _ _ = Ret (_, _) |- _ => apply modify_Ret in H
  | H : rd _ _ _ = Ret (_, _) |- _ =>
      let i := fresh "i" in let n := fresh "nd" in
      apply rd_Ret in H as (? & i & n & ? & ? & ?)
  | H : wr _ _ _ = Ret (_, _) |- _ =>
      let i := fresh "i" in apply wr_Ret in H as (i & ? & ?)
  | H : rd_judy _ = Ret (_, _) |- _ => apply rd_judy_Ret in H as [? ?]
  | H : wr_judy _ _ = Ret (_, _) |- _ => apply wr_judy_Ret in H as [? ?]
  | H : fault _ = Ret _ |- _ => discriminate H
  | H : abort _ = Ret _ |- _ => discriminate H
  end.

Ltac inv_M := repeat (inv_M1; simplify_eq/=).

(** The same, also splitting on the tests of the code. *)
Ltac inv_M_cases :=
  repeat (first
    [ inv_M1
    | match goal with
      | H : (if ?b then _ else _) _ = Ret _ |- _ => destruct b eqn:?
      end ];
    simplify_eq/=).

Lemma bind_Abort {A B} (m : M A) (f : A → M B) ch :
  (m ≫= f) ch = Abort ↔
  m ch = Abort ∨ ∃ a ch', m ch = Ret (a, ch') ∧ f a ch' = Abort.
Proof.
  unfold mbind, M_bind.
  destruct (m ch) as [[a ch']| |]; naive_solver.
Qed.

Lemma assert_Abort b ch : assert b ch = Abort (A:=unit * cachehash) ↔ b = false.
Proof. destruct b; unfold assert, abort, mret, M_ret; naive_solver. Qed.

Lemma rd_not_Abort {A} (field : node_t → A) p ch : rd field p ch ≠ Abort.
Proof.
  unfold rd. destruct (slot_of _ p) as [i|]; [|done].
  by destruct (malloced ch !! i).
Qed.

Lemma wr_not_Abort upd p ch : wr upd p ch ≠ Abort.
Proof. unfold wr. by destruct (slot_of _ p). Qed.

Lemma rd_judy_not_Abort ch : rd_judy ch ≠ Abort.
Proof. unfold rd_judy. by destruct (judy ch) as [[?|]|]. Qed.

Lemma wr_judy_not_Abort m ch : wr_judy m ch ≠ Abort.
Proof. unfold wr_judy. by destruct (judy ch). Qed.

(** Invert one step of a computation that is known to abort. *)
Ltac inv_A1 :=
  match goal with
  | H : (_ ≫= _) _ = Abort |- _ =>
      let a := fresh "a" in let c := fresh "ch" in let E := fresh "E" in
      apply bind_Abort in H as [H | (a & c & E & H)]
  | H : assert _ _ = Abort |- _ => apply assert_Abort in H
  | H : rd _ _ _ = Abort |- _ => destruct (rd_not_Abort _ _ _ H)
  | H : wr _ _ _ = Abort |- _ => destruct (wr_not_Abort _ _ _ H)
  | H : rd_judy _ = Abort |- _ => destruct (rd_judy_not_Abort _ H)
  | H : wr_judy _ _ = Abort |- _ => destruct (wr_judy_not_Abort _ _ H)
  | H : mret _ _ = Abort |- _ => discriminate H
  | H : gets _ _ = Abort |- _ => discriminate H
  | H : modify _ _ = Abort |- _ => discriminate H
  | H : fault _ = Abort |- _ => discriminate H
  | H : (if ?b then _ else _) _ = Abort |- _ => destruct b eqn:?
  end.

Ltac inv_A := repeat (first [inv_A1 | inv_M1]; simplify_eq/=).

Lemma use_frame n ch u ch' :
  use n ch = Ret (u, ch') → same_frame ch ch'.
Proof.
  unfold use, same_frame. intros H.
  inv_M_cases; rewrite ?length_alter; done.
Qed.

Lemma with_judy_same ch x : judy ch = Some x → with_judy (Some x) ch = ch.
Proof. destruct ch; simpl; intros ->; reflexivity. Qed.

Lemma eqb_empty_false k : k ≠ EmptyString → String.eqb k EmptyString = false.
Proof. intros H. by apply String.eqb_neq. Qed.

(** [eviction_needed] is an equality test. *)
Lemma evict_if_full_unneeded ch :
  currsize ch ≠ maxsize ch → cachehash_evict_if_full ch = Ret (NULL, ch).
Proof.
  intros Hne.
  unfold cachehash_evict_if_full, eviction_needed, gets, mbind, M_bind.
  rewrite bool_decide_eq_false_2 by done. reflexivity.
Qed.

(** * The properties of the specification *)

(** ** C10: [evict_if_full] on a cache that is not full *)

(** C10. Whenever [currsize < maxsize], [cachehash_evict_if_full] returns
    NULL (nothing to evict) and the whole struct, arena and index
    included, is what it was. *)
Theorem evict_if_full_not_full_noop ch :
  (currsize ch < maxsize ch)%Z →
  cachehash_evict_if_full ch = Ret (NULL, ch).
Proof.
  intros Hlt. apply evict_if_full_unneeded. lia.
Qed.

Lemma evict_if_full_not_full_noop_witness :
  (currsize created2 < maxsize created2)%Z
  ∧ cachehash_evict_if_full created2 = Ret (NULL, created2).
Proof.
  split; [reflexivity|].
  apply (evict_if_full_not_full_noop created2). reflexivity.
Defined.

(** ** C9: [has] does not change the cache *)

Lemma judy_get_unchanged k ch n ch' :
  judy_get k ch = Ret (n, ch') → ch' = ch.
Proof.
  unfold judy_get. intros H. inv_M.
  case_match; inv_M.
  by apply with_judy_same.
Qed.

Lemma cachehash_has_unchanged k ch v ch' :
  cachehash_has k ch = Ret (v, ch') → ch' = ch.
Proof.
  unfold cachehash_has. intros H. inv_M.
  match goal with
  | H : judy_get _ _ = Ret _ |- _ => apply judy_get_unchanged in H as ->
  end.
  inv_M_cases; done.
Qed.

(** C9. However many times [has] is called with a key, when the calls
    return the struct is identical to the one before them: the recency
    list, the index, the slots and the counters.  So the eviction that
    comes next takes the same slot and hands back the same value. *)
Theorem has_repeat_unchanged n k ch u ch' :
  has_repeat n k ch = Ret (u, ch') →
  ch' = ch ∧ cachehash_evict_if_full ch' = cachehash_evict_if_full ch.
Proof.
  revert ch. induction n as [|n IH]; simpl; intros ch H; inv_M; [done|].
  match goal with
  | H : cachehash_has _ _ = Ret _ |- _ =>
      apply cachehash_has_unchanged in H as ->
  end.
  by apply IH.
Qed.

Lemma has_repeat_unchanged_witness :
  has_repeat 3 "A" filled2 = Ret (tt, filled2)
  ∧ cachehash_evict_if_full filled2 = cachehash_evict_if_full filled2.
Proof.
  split; [vm_compute; reflexivity|].
  apply (has_repeat_unchanged 3 "A" filled2 tt filled2).
  vm_compute; reflexivity.
Defined.

(** ** C3: a key that is not in the index *)

(** C3. For a non-empty key the index does not hold, [has] and [get] do
    not return NULL: [judy_get] dereferences the NULL that [JHSG] yields
    (or the NULL [judy] field itself), which is a fault. *)
Theorem miss_faults k ch :
  k ≠ EmptyString → index_lookup ch k = None →
  cachehash_has k ch = Fault ∧ cachehash_get k ch = Fault.
Proof.
  intros Hk Hmiss.
  unfold cachehash_has, cachehash_get, judy_get, rd_judy, wr_judy,
    mbind, M_bind, assert, mret, M_ret, index_lookup in *.
  rewrite (eqb_empty_false k Hk). simpl.
  destruct (judy ch) as [[m|]|] eqn:E; simpl; rewrite ?E; [|done|done].
  rewrite Hmiss. done.
Qed.

Lemma miss_faults_witness :
  "A" ≠ EmptyString ∧ index_lookup created2 "A" = None
  ∧ cachehash_has "A" created2 = Fault ∧ cachehash_get "A" created2 = Fault.
Proof.
  split; [discriminate|]. split; [reflexivity|].
  apply (miss_faults "A" created2); [discriminate|reflexivity].
Defined.

(** ** C7: the capacity invariant *)

Lemma two64_val : two64 = 18446744073709551616%Z.
Proof. reflexivity. Qed.

Lemma evict_size ch v ch' :
  evict ch = Ret (v, ch') →
  maxsize ch' = maxsize ch ∧ evict_cb ch' = evict_cb ch
  ∧ currsize ch' = ((currsize ch - 1) mod two64)%Z.
Proof. unfold evict. intros H. inv_M. done. Qed.

Lemma evict_if_full_size ch v ch' :
  cachehash_evict_if_full ch = Ret (v, ch') →
  maxsize ch' = maxsize ch ∧ evict_cb ch' = evict_cb ch
  ∧ currsize ch' =
      (if bool_decide (currsize ch = maxsize ch)
       then (currsize ch - 1) mod two64 else currsize ch)%Z.
Proof.
  unfold cachehash_evict_if_full, eviction_needed. intros H. inv_M.
  case_bool_decide; inv_M; [|done].
  by eapply evict_size.
Qed.

Lemma put_index_size rm k v ch u ch' :
  put_index rm k v ch = Ret (u, ch') →
  maxsize ch' = maxsize ch ∧ evict_cb ch' = evict_cb ch
  ∧ currsize ch' = currsize ch.
Proof.
  unfold put_index. intros H. inv_M.
  case_match; inv_M_cases; done.
Qed.

Lemma put_size rm k v ch calls ch' :
  cachehash_put rm k v ch = Ret (calls, ch') →
  maxsize ch' = maxsize ch ∧ evict_cb ch' = evict_cb ch
  ∧ currsize ch' =
      (if bool_decide (currsize ch = maxsize ch)
       then ((currsize ch - 1) mod two64 + 1) mod two64
       else (currsize ch + 1) mod two64)%Z.
Proof.
  unfold cachehash_put. intros H. inv_M.
  repeat match goal with
  | H : cachehash_evict_if_full _ = Ret _ |- _ =>
      apply evict_if_full_size in H as (Hm & Hc & Hs)
  | H : use _ _ = Ret _ |- _ =>
      apply use_frame in H as (_ & Hm' & Hs' & Hc' & _)
  | H : put_index _ _ _ _ = Ret _ |- _ =>
      apply put_index_size in H as (Hm'' & Hc'' & Hs'')
  end.
  simpl in *. rewrite Hm'', Hc'', Hs'', Hm', Hc', Hs', Hm, Hc, Hs.
  repeat split. by destruct (bool_decide _).
Qed.

Lemma get_size k ch v ch' :
  cachehash_get k ch = Ret (v, ch') →
  maxsize ch' = maxsize ch ∧ currsize ch' = currsize ch.
Proof.
  unfold cachehash_get. intros H. inv_M.
  match goal with
  | H : judy_get _ _ = Ret _ |- _ => apply judy_get_unchanged in H as ->
  end.
  inv_M_cases; [done|].
  match goal with
  | H : use _ _ = Ret _ |- _ => apply use_frame in H as (_ & ? & ? & _)
  end.
  done.
Qed.

Section Invariant.

Variable root_moves : gmap string ptr → string → bool.

Lemma run_op_size_ok o ch u ch' :
  size_ok ch → run_op root_moves o ch = Ret (u, ch') →
  size_ok ch' ∧ maxsize ch' = maxsize ch.
Proof.
  unfold size_ok. rewrite two64_val. intros [Hm Hs] H.
  destruct o as [k|k|k v|]; simpl in H; inv_M;
    match goal with H : _ = Ret _ |- _ => rename H into E end.
  - apply cachehash_has_unchanged in E as ->. done.
  - apply get_size in E as [-> ->]. done.
  - apply put_size in E as (-> & _ & ->). rewrite two64_val.
    case_bool_decide.
    + rewrite (Z.mod_small (currsize ch - 1)) by lia.
      rewrite Z.mod_small by lia. lia.
    + rewrite Z.mod_small by lia. lia.
  - apply evict_if_full_size in E as (-> & _ & ->). rewrite two64_val.
    case_bool_decide; rewrite ?Z.mod_small by lia; lia.
Qed.

Lemma run_size_ok ops ch u ch' :
  size_ok ch → run root_moves ops ch = Ret (u, ch') →
  size_ok ch' ∧ maxsize ch' = maxsize ch.
Proof.
  revert ch. induction ops as [|o ops IH]; simpl; intros ch Hok H.
  - inv_M. done.
  - apply bind_Ret in H as ([] & ch1 & E & H).
    destruct (run_op_size_ok _ _ _ _ Hok E) as [Hok' Hm].
    destruct (IH _ Hok' H) as [? ?]. split; [done|congruence].
Qed.

End Invariant.

Lemma cachehash_init_size_ok maxitems cb ch :
  cachehash_init maxitems cb = Ret ch →
  size_ok ch ∧ maxsize ch = maxitems.
Proof.
  unfold cachehash_init, size_ok. rewrite two64_val.
  repeat case_bool_decide; intros Hret; simplify_eq/=. lia.
Qed.

(** C7. From a cache with a capacity in [(0, 2^64)] and
    [0 ≤ currsize ≤ maxsize], which is what [cachehash_init] returns
    ([cachehash_init_size_ok]), every sequence of [has], [get], [put] and
    [evict_if_full] that returns ends in a cache with
    [0 ≤ currsize ≤ maxsize] and the same capacity.  The sequence is
    arbitrary, so the bound holds after each of its operations. *)
Theorem capacity_invariant root_moves ops ch u ch' :
  (0 < maxsize ch < two64)%Z →
  (0 ≤ currsize ch ≤ maxsize ch)%Z →
  run root_moves ops ch = Ret (u, ch') →
  (0 ≤ currsize ch' ≤ maxsize ch')%Z ∧ maxsize ch' = maxsize ch.
Proof.
  intros Hm Hs Hrun.
  destruct (run_size_ok root_moves ops ch u ch' (conj Hm Hs) Hrun)
    as [[_ ?] ?].
  done.
Qed.

Lemma capacity_invariant_witness :
  (0 < maxsize filled2 < two64)%Z
  ∧ (0 ≤ currsize filled2 ≤ maxsize filled2)%Z
  ∧ ∃ ch',
      run no_moves
        [Has "A"; Get "B"; EvictIfFull; Put "C" (Handle 3); EvictIfFull]
        filled2 = Ret (tt, ch')
      ∧ (0 ≤ currsize ch' ≤ maxsize ch')%Z ∧ maxsize ch' = maxsize filled2.
Proof.
  split; [vm_compute; split; reflexivity|].
  split; [vm_compute; split; discriminate|].
  eexists. split; [vm_compute; reflexivity|].
  apply (capacity_invariant no_moves
           [Has "A"; Get "B"; EvictIfFull; Put "C" (Handle 3); EvictIfFull]
           filled2 tt);
    [vm_compute; split; reflexivity
    |vm_compute; split; discriminate
    |vm_compute; reflexivity].
Defined.

(** The same for the caches [cachehash_init] makes. *)
Corollary capacity_invariant_created root_moves maxitems cb ch0 ops u ch :
  cachehash_init maxitems cb = Ret ch0 →
  run root_moves ops ch0 = Ret (u, ch) →
  (0 ≤ currsize ch ≤ maxsize ch)%Z ∧ maxsize ch = maxitems.
Proof.
  intros Hinit Hrun.
  apply cachehash_init_size_ok in Hinit as [Hok <-].
  destruct (run_size_ok root_moves ops ch0 u ch Hok Hrun) as [[_ ?] ?].
  done.
Qed.

(** The invariant is kept from any state that satisfies it, also when the
    operations fill the cache. *)
Example run_fills_indexed :
  ∃ ch, run no_moves [Put "A" (Handle 1); EvictIfFull; Put "B" (Handle 2)]
          created2_indexed = Ret (tt, ch)
        ∧ currsize ch = 2%Z ∧ maxsize ch = 2%Z.
Proof. eexists. vm_compute. split; [reflexivity|split; reflexivity]. Qed.

(** ** What [cachehash_init] builds *)

Lemma length_foldl_link_middle (idxs : list nat) nodes :
  length (foldl link_middle nodes idxs) = length nodes.
Proof.
  revert nodes. induction idxs as [|i idxs IH]; simpl; intros nodes; [done|].
  rewrite IH. unfold link_middle. by rewrite !length_alter.
Qed.

Lemma cachehash_init_Ret maxitems cb ch :
  cachehash_init maxitems cb = Ret ch →
  judy ch = None ∧ evict_cb ch = None ∧ currsize ch = 0%Z
  ∧ maxsize ch = maxitems ∧ (0 < maxitems)%Z
  ∧ end_ ch = Slot (maxitems - 1)
  ∧ length (malloced ch) = Z.to_nat maxitems.
Proof.
  unfold cachehash_init.
  repeat case_bool_decide; intros Hret; simplify_eq/=.
  repeat split; [lia|].
  by rewrite length_alter, length_foldl_link_middle, length_alter,
    length_replicate.
Qed.

Lemma cachehash_init_2 cb : cachehash_init 2 cb = Ret created2.
Proof. reflexivity. Qed.

(** The callback handed to [cachehash_init] is not kept. *)
Lemma cachehash_init_drops_cb maxitems cb ch :
  cachehash_init maxitems cb = Ret ch → evict_cb ch = None.
Proof. intros H. by apply cachehash_init_Ret in H as (_ & ? & _). Qed.

(** ** Operations on a cache whose [judy] field is NULL *)

Lemma use_not_Abort n ch : n ≠ NULL → use n ch ≠ Abort.
Proof.
  unfold use. intros Hn H. inv_A. by destruct n.
Qed.

Lemma put_without_index rm k v ch r :
  judy ch = None → cachehash_put rm k v ch ≠ Ret r.
Proof.
  unfold cachehash_put. intros Hj H. inv_M.
  repeat match goal with
  | H : cachehash_evict_if_full _ = Ret _ |- _ =>
      unfold cachehash_evict_if_full, eviction_needed, evict in H
  | H : use _ _ = Ret _ |- _ =>
      apply use_frame in H as (Hj' & _)
  | H : put_index _ _ _ _ = Ret _ |- _ => unfold put_index in H
  end.
  inv_M_cases; simpl in *; congruence.
Qed.

(** On a cache that [cachehash_init] returned, every [put] of a non-empty
    key faults: the slot is filled and moved, then [*ch->judy] is read
    through the NULL field. *)
Lemma put_on_created_faults rm maxitems cb ch k v :
  cachehash_init maxitems cb = Ret ch → k ≠ EmptyString →
  cachehash_put rm k v ch = Fault.
Proof.
  intros Hinit Hk.
  destruct (cachehash_init_Ret _ _ _ Hinit)
    as (Hj & _ & Hs & Hm & Hpos & He & _).
  assert (Hev : cachehash_evict_if_full ch = Ret (NULL, ch))
    by (apply evict_if_full_unneeded; lia).
  destruct (cachehash_put rm k v ch) as [r| |] eqn:E; [| |done].
  - by destruct (put_without_index rm k v ch r Hj).
  - exfalso. unfold cachehash_put in E. inv_A.
    + by rewrite eqb_empty_false in E.
    + congruence.
    + match goal with
      | H : use _ _ = Abort |- _ => apply use_not_Abort in H; [done|]
      end.
      rewrite Hev in *. simplify_eq/=. by rewrite He.
    + unfold put_index in *. inv_A.
      match goal with
      | H : use _ _ = Ret _ |- _ => apply use_frame in H as (Hj' & _)
      end.
      rewrite Hev in *. simplify_eq/=. congruence.
Qed.

(** ** Computations that succeed *)

Lemma bind_eq {A B} (m : M A) (f : A → M B) ch a ch' :
  m ch = Ret (a, ch') → (m ≫= f) ch = f a ch'.
Proof. unfold mbind, M_bind. by intros ->. Qed.

Lemma bind_eq_Abort {A B} (m : M A) (f : A → M B) ch :
  m ch = Abort → (m ≫= f) ch = Abort.
Proof. unfold mbind, M_bind. by intros ->. Qed.

Lemma slot_of_Some arena p i :
  slot_of arena p = Some i →
  p = Slot (Z.of_nat i) ∧ ∃ nd, arena !! i = Some nd.
Proof.
  destruct p as [|z|h]; simpl; try done.
  case_bool_decide; intros ?; simplify_eq.
  split; [f_equal; lia|].
  apply lookup_lt_is_Some_2. lia.
Qed.

Lemma slot_of_alter f i arena p :
  slot_of (alter f i arena) p = slot_of arena p.
Proof. destruct p; simpl; try done. by rewrite length_alter. Qed.

Lemma rd_eq {A} (field : node_t → A) p ch i nd :
  slot_of (malloced ch) p = Some i → malloced ch !! i = Some nd →
  rd field p ch = Ret (field nd, ch).
Proof. unfold rd. by intros -> ->. Qed.

Lemma wr_eq upd p ch i :
  slot_of (malloced ch) p = Some i →
  wr upd p ch = Ret (tt, with_malloced (alter upd i (malloced ch)) ch).
Proof. unfold wr. by intros ->. Qed.

Lemma malloced_with_malloced v ch : malloced (with_malloced v ch) = v.
Proof. reflexivity. Qed.

Lemma link_ok_alter f i arena p :
  link_ok (alter f i arena) p ↔ link_ok arena p.
Proof. unfold link_ok. by rewrite slot_of_alter. Qed.

Lemma link_ok_slot arena p :
  link_ok arena p → is_null p = false → is_Some (slot_of arena p).
Proof. intros [->|H]; [done|]. done. Qed.

(** [use] returns when [n] is a slot whose two links can be followed. *)
Lemma use_returns n ch i nd :
  slot_of (malloced ch) n = Some i → malloced ch !! i = Some nd →
  link_ok (malloced ch) (next nd) → link_ok (malloced ch) (prev nd) →
  ∃ ch', use n ch = Ret (tt, ch').
Proof.
  intros Hn Hnd Hnext Hprev.
  destruct (slot_of_Some _ _ _ Hn) as [-> _].
  unfold use. rewrite (bind_eq _ _ _ tt ch) by done.
  rewrite (bind_eq _ _ _ _ _ (rd_eq prev _ _ _ _ Hn Hnd)).
  destruct (is_null (prev nd)) eqn:Hp; [by eexists|].
  destruct (link_ok_slot _ _ Hprev Hp) as [ip Hip].
  rewrite (bind_eq _ _ _ _ _ (rd_eq next _ _ _ _ Hn Hnd)).
  rewrite (bind_eq _ _ _ _ _ (wr_eq _ _ _ _ Hip)).
  set (ch1 := with_malloced _ ch).
  assert (Hn1 : slot_of (malloced ch1) (Slot (Z.of_nat i)) = Some i)
    by (unfold ch1; by rewrite malloced_with_malloced, slot_of_alter).
  assert (∃ nd1, malloced ch1 !! i = Some nd1 ∧ next nd1 = next nd)
    as (nd1 & Hnd1 & Hnx1).
  { unfold ch1; rewrite malloced_with_malloced.
    destruct (decide (ip = i)) as [->|Hne].
    - rewrite list_lookup_alter_eq, Hnd. by eexists.
    - rewrite list_lookup_alter_ne by done. by eexists. }
  rewrite (bind_eq _ _ _ _ _ (rd_eq next _ _ _ _ Hn1 Hnd1)).
  rewrite Hnx1.
  assert (∃ ch2, (if is_null (next nd) return M unit
                  then modify (with_end (prev nd))
                  else wr (set_prev (prev nd)) (next nd)) ch1 = Ret (tt, ch2)
                 ∧ length (malloced ch2) = length (malloced ch))
    as (ch2 & E2 & Hlen2).
  { destruct (is_null (next nd)) eqn:Hx.
    - eexists; split; [reflexivity|].
      unfold ch1, modify, with_end; simpl. by rewrite length_alter.
    - destruct (link_ok_slot _ _ Hnext Hx) as [ix Hix].
      eexists; split.
      + apply wr_eq. unfold ch1.
        rewrite malloced_with_malloced, slot_of_alter. exact Hix.
      + unfold ch1. by rewrite !malloced_with_malloced, !length_alter. }
  rewrite (bind_eq _ _ _ _ _ E2).
  rewrite (bind_eq _ _ _ (start ch2) ch2) by done.
  assert (Hn2 : slot_of (malloced ch2) (Slot (Z.of_nat i)) = Some i).
  { unfold slot_of in *. by rewrite Hlen2. }
  rewrite (bind_eq _ _ _ _ _ (wr_eq _ _ _ _ Hn2)).
  rewrite (bind_eq _ _ _ tt _) by reflexivity.
  eexists. apply wr_eq. unfold with_start.
  rewrite malloced_with_malloced. cbn [malloced].
  by rewrite slot_of_alter.
Qed.

Lemma set_key_keeps_links v : keeps_links (set_key v).
Proof. by intros n. Qed.

Lemma set_data_keeps_links v : keeps_links (set_data v).
Proof. by intros n. Qed.

Lemma arena_links_alter f i arena :
  keeps_links f →
  Forall (λ n, link_ok arena (next n) ∧ link_ok arena (prev n)) arena →
  Forall (λ n, link_ok (alter f i arena) (next n)
               ∧ link_ok (alter f i arena) (prev n)) (alter f i arena).
Proof.
  intros Hf Hall. apply Forall_alter.
  - eapply Forall_impl; [exact Hall|].
    intros n [? ?]. by rewrite !link_ok_alter.
  - intros n _. destruct (Hf n) as [-> ->]. done.
Qed.

(** Filling or clearing a slot leaves the list as it can be walked. *)
Lemma links_ok_payload f i ch :
  keeps_links f → links_ok ch →
  links_ok (with_malloced (alter f i (malloced ch)) ch).
Proof.
  intros Hf [Hend Hall]. split; simpl.
  - by rewrite slot_of_alter.
  - by apply arena_links_alter.
Qed.

Lemma assert_false_bind {B} (f : unit → M B) ch :
  (assert false ≫= f) ch = Abort.
Proof. reflexivity. Qed.

Lemma assert_true_bind {B} (f : unit → M B) ch :
  (assert true ≫= f) ch = f tt ch.
Proof. reflexivity. Qed.

(** [evict] on a cache whose index can be read and whose tail is a slot:
    the assertion on [rc] fails, or the tail's key leaves the index. *)
Lemma evict_outcome ch m :
  links_ok ch → judy ch = Some (JArray m) →
  evict ch = Abort
  ∨ ∃ v ch1, evict ch = Ret (v, ch1) ∧ links_ok ch1
      ∧ judy ch1 = Some (JArray (delete (default EmptyString (tail_key ch)) m)).
Proof.
  intros Hok Hj. pose proof Hok as [[ie Hie] Hall].
  destruct (slot_of_Some _ _ _ Hie) as [_ [nd Hnd]].
  assert (Hkb : default EmptyString (tail_key ch) = key_bytes nd).
  { unfold tail_key. rewrite Hie. simpl. by rewrite Hnd. }
  rewrite Hkb. unfold evict.
  rewrite (bind_eq _ _ _ (end_ ch) ch) by done.
  rewrite (bind_eq _ _ _ m ch) by (unfold rd_judy; by rewrite Hj).
  rewrite (bind_eq _ _ _ _ _ (rd_eq key_bytes _ _ _ _ Hie Hnd)).
  destruct (m !! key_bytes nd) as [w|] eqn:Hw.
  - right. rewrite bool_decide_eq_true_2 by eauto.
    rewrite assert_true_bind.
    rewrite (bind_eq _ _ _ tt (with_judy (Some (JArray (delete (key_bytes nd) m))) ch))
      by (unfold wr_judy; by rewrite Hj).
    set (ch1 := with_judy _ ch).
    assert (Hie1 : slot_of (malloced ch1) (end_ ch) = Some ie) by done.
    assert (Hnd1 : malloced ch1 !! ie = Some nd) by done.
    rewrite (bind_eq _ _ _ _ _ (rd_eq data _ _ _ _ Hie1 Hnd1)).
    rewrite (bind_eq _ _ _ _ _ (wr_eq _ _ _ _ Hie1)).
    set (ch2 := with_malloced _ ch1).
    assert (Hie2 : slot_of (malloced ch2) (end_ ch) = Some ie)
      by (unfold ch2; by rewrite malloced_with_malloced, slot_of_alter).
    rewrite (bind_eq _ _ _ _ _ (wr_eq _ _ _ _ Hie2)).
    rewrite (bind_eq _ _ _ tt _) by reflexivity.
    eexists _, _. split; [reflexivity|]. split; [|done].
    assert (Hok1 : links_ok ch1) by done.
    pose proof (links_ok_payload (set_data NULL) ie _
                  (set_data_keeps_links _) Hok1) as Hok2.
    pose proof (links_ok_payload (set_key None) ie _
                  (set_key_keeps_links _) Hok2) as Hok3.
    exact Hok3.
  - left. rewrite bool_decide_eq_false_2 by (intros [? ?]; congruence).
    apply assert_false_bind.
Qed.

(** The rest of [put] once [evict_if_full] is done, for a key the index
    holds with a non-null word. *)
Lemma put_present_after_evict rm k v ch ev ch1 m w :
  k ≠ EmptyString →
  cachehash_evict_if_full ch = Ret (ev, ch1) →
  links_ok ch1 → judy ch1 = Some (JArray m) →
  m !! k = Some w → w ≠ NULL →
  cachehash_put rm k v ch = Abort.
Proof.
  intros Hk Hev [[ie Hie] Hall] Hj Hw Hnn.
  destruct (slot_of_Some _ _ _ Hie) as [_ [nd Hnd]].
  destruct (Forall_lookup_1 _ _ _ _ Hall Hnd) as [Hnext Hprev].
  unfold cachehash_put.
  rewrite (eqb_empty_false k Hk). simpl negb. rewrite assert_true_bind.
  rewrite (bind_eq _ _ _ _ _ Hev).
  rewrite (bind_eq _ _ _ (evict_cb ch1) ch1) by done.
  rewrite (bind_eq _ _ _ (end_ ch1) ch1) by done.
  rewrite (bind_eq _ _ _ _ _ (wr_eq _ _ _ _ Hie)).
  set (ch2 := with_malloced _ ch1).
  assert (Hie2 : slot_of (malloced ch2) (end_ ch1) = Some ie)
    by (unfold ch2; by rewrite malloced_with_malloced, slot_of_alter).
  rewrite (bind_eq _ _ _ _ _ (wr_eq _ _ _ _ Hie2)).
  set (ch3 := with_malloced _ ch2).
  assert (Hie3 : slot_of (malloced ch3) (end_ ch1) = Some ie)
    by (unfold ch3; by rewrite malloced_with_malloced, slot_of_alter).
  assert (Hnd3 : malloced ch3 !! ie
                 = Some (set_data v (set_key (Some k) nd))).
  { unfold ch3, ch2. rewrite !malloced_with_malloced.
    by rewrite !list_lookup_alter_eq, Hnd. }
  destruct (use_returns (end_ ch1) ch3 ie _ Hie3 Hnd3) as [ch4 Huse].
  { unfold ch3, ch2. rewrite !malloced_with_malloced.
    by rewrite !link_ok_alter. }
  { unfold ch3, ch2. rewrite !malloced_with_malloced.
    by rewrite !link_ok_alter. }
  rewrite (bind_eq _ _ _ _ _ Huse).
  apply use_frame in Huse as (Hj4 & _).
  rewrite (bind_eq _ _ _ tt _) by reflexivity.
  apply bind_eq_Abort. unfold put_index.
  rewrite (bind_eq _ _ _ m _)
    by (unfold rd_judy; simpl; rewrite Hj4; simpl; by rewrite Hj).
  rewrite Hw. destruct w; [done| |]; apply assert_false_bind.
Qed.

(** ** C8: a second [put] of a key *)

(** What [assert(!*v_)] does catch.  When the index holds the key with a
    non-null word and the list can be walked, [put] with that key stops
    on a failed assertion, unless the cache is full and its tail slot
    holds that very key (the tail is evicted before the index is
    consulted). *)
Theorem put_present_aborts rm k v ch w :
  links_ok ch → k ≠ EmptyString →
  index_lookup ch k = Some w → w ≠ NULL →
  (currsize ch = maxsize ch → tail_key ch ≠ Some k) →
  cachehash_put rm k v ch = Abort.
Proof.
  intros Hok Hk Hidx Hw Htail. unfold index_lookup in Hidx.
  destruct (judy ch) as [[m|]|] eqn:Hj; try done.
  destruct (decide (currsize ch = maxsize ch)) as [Hfull|Hne].
  - assert (Hev : cachehash_evict_if_full ch = evict ch).
    { unfold cachehash_evict_if_full, eviction_needed.
      rewrite (bind_eq _ _ _ true ch); [done|].
      unfold gets. by rewrite bool_decide_eq_true_2. }
    destruct (evict_outcome ch m Hok Hj)
      as [Hab | (ev & ch1 & Hret & Hok1 & Hj1)].
    + unfold cachehash_put.
      rewrite (eqb_empty_false k Hk). simpl negb. rewrite assert_true_bind.
      apply bind_eq_Abort. by rewrite Hev.
    + eapply (put_present_after_evict rm k v ch ev ch1 _ w Hk);
        [by rewrite Hev | done | exact Hj1 | | done].
      rewrite lookup_delete_ne; [done|].
      specialize (Htail Hfull).
      destruct (tail_key ch); simpl; congruence.
  - apply (put_present_after_evict rm k v ch NULL ch m w Hk); try done.
    by apply evict_if_full_unneeded.
Qed.

Lemma put_present_aborts_witness :
  links_ok filled2 ∧ "B" ≠ EmptyString
  ∧ index_lookup filled2 "B" = Some (Slot 1) ∧ Slot 1 ≠ NULL
  ∧ (currsize filled2 = maxsize filled2 → tail_key filled2 ≠ Some "B")
  ∧ cachehash_put no_moves "B" (Handle 3) filled2 = Abort.
Proof.
  assert (Hok : links_ok filled2).
  { split; [by eexists|]. simpl.
    repeat (constructor; [split; first [by left | right; by eexists]|]).
    constructor. }
  split; [exact Hok|]. split; [discriminate|].
  split; [reflexivity|]. split; [discriminate|].
  split; [intros _; discriminate|].
  apply (put_present_aborts no_moves "B" (Handle 3) filled2 (Slot 1));
    [exact Hok | discriminate | reflexivity | discriminate | ].
  intros _. discriminate.
Defined.

(** The test comes after the eviction: ["A"] is in the index and in the
    tail slot of the full cache [filled2], and [put] of ["A"] returns,
    whatever Judy does with its root. *)
Lemma put_of_tail_key_returns :
  index_lookup filled2 "A" = Some (Slot 0)
  ∧ tail_key filled2 = Some "A"
  ∧ currsize filled2 = maxsize filled2
  ∧ (∃ ch, cachehash_put no_moves "A" (Handle 3) filled2 = Ret ([], ch))
  ∧ (∃ ch, cachehash_put always_moves "A" (Handle 3) filled2 = Ret ([], ch)).
Proof.
  repeat split; try reflexivity; eexists; vm_compute; reflexivity.
Qed.

(** C8. A second [put] of a key is not stopped by the assertion.  On the
    cache [cachehash_init] returns, the first [put] faults at
    [*ch->judy], so no later [put] is reached.  With an index, both puts
    of ["A"] return: the first never reached the index (the root [JHSI]
    updated is the local copy), so [assert(!*v_)] sees a new entry; the
    cache then holds ["A"] in both slots and is full, with an empty
    index. *)
Theorem duplicate_put_not_caught rm :
  cachehash_init 2 None = Ret created2
  ∧ run rm [Put "A" (Handle 1); Put "A" (Handle 2)] created2 = Fault
  ∧ ∃ ch, run rm [Put "A" (Handle 1); Put "A" (Handle 2)] created2_indexed
          = Ret (tt, ch)
      ∧ key <$> malloced ch !! 0%nat = Some (Some "A")
      ∧ key <$> malloced ch !! 1%nat = Some (Some "A")
      ∧ data <$> malloced ch !! 0%nat = Some (Handle 2)
      ∧ data <$> malloced ch !! 1%nat = Some (Handle 1)
      ∧ currsize ch = maxsize ch
      ∧ index_lookup ch "A" = None.
Proof.
  split; [reflexivity|]. split; [reflexivity|].
  eexists. split; [vm_compute; reflexivity|].
  repeat split; reflexivity.
Qed.

(** ** C1: round trip *)

(** C1. A value that was put is not read back.  On the cache
    [cachehash_init] returns, [put] faults when it reads [*ch->judy].  If
    the [judy] field pointed to an empty array, [put] would return, but
    the index would still be empty, because the root [JHSI] updated is
    the local copy; [get] and [has] with the key then fault. *)
Theorem round_trip_faults rm :
  cachehash_init 2 None = Ret created2
  ∧ cachehash_put rm "A" (Handle 1) created2 = Fault
  ∧ ∃ ch, cachehash_put rm "A" (Handle 1) created2_indexed = Ret ([], ch)
      ∧ index_lookup ch "A" = None
      ∧ cachehash_get "A" ch = Fault
      ∧ cachehash_has "A" ch = Fault.
Proof.
  split; [reflexivity|]. split; [reflexivity|].
  eexists. repeat split; vm_compute; reflexivity.
Qed.

(** Where [put] finds the key in the array with the word 0, the word it
    stores there is the caller's value, not the slot; [get] then takes the
    value for a [node_t *]. *)
Example index_holds_value_not_slot rm :
  ∃ ch, cachehash_put rm "A" (Handle 1)
          (with_judy (Some (JArray (<["A" := NULL]> ∅))) created2)
        = Ret ([], ch)
      ∧ index_lookup ch "A" = Some (Handle 1)
      ∧ cachehash_get "A" ch = Fault.
Proof. eexists. repeat split; vm_compute; reflexivity. Qed.

(** ** C2: the eviction callback *)

Lemma put_no_callback rm k v ch calls ch' :
  evict_cb ch = None →
  cachehash_put rm k v ch = Ret (calls, ch') →
  calls = [] ∧ evict_cb ch' = None.
Proof.
  intros Hcb H. pose proof (put_size _ _ _ _ _ _ H) as (_ & Hcb' & _).
  split; [|congruence].
  unfold cachehash_put in H. inv_M.
  match goal with
  | H : cachehash_evict_if_full _ = Ret _ |- _ =>
      apply evict_if_full_size in H as (_ & Hc & _)
  end.
  rewrite Hc, Hcb. done.
Qed.

(** C2. The callback given to [cachehash_init] is never called.  The
    struct [cachehash_init 2 (Some 7)] returns has [evict_cb] NULL.  On the
    full cache [filled2], which has that field, [put] evicts the tail
    (its value [Handle 1] is what [evict_if_full] hands back) and returns
    an empty list of calls. *)
Theorem eviction_callback_not_invoked rm :
  cachehash_init 2 (Some 7%nat) = Ret created2
  ∧ evict_cb filled2 = evict_cb created2
  ∧ currsize filled2 = maxsize filled2
  ∧ (∃ ch, cachehash_evict_if_full filled2 = Ret (Handle 1, ch))
  ∧ ∃ ch, cachehash_put rm "C" (Handle 3) filled2 = Ret ([], ch)
      ∧ index_lookup ch "A" = None.
Proof.
  repeat split; try reflexivity.
  - eexists. vm_compute. reflexivity.
  - destruct (cachehash_put rm "C" (Handle 3) filled2) as [[calls ch]| |] eqn:E;
      vm_compute in E;
      match type of E with context [rm ?m ?k] => destruct (rm m k) end;
      simplify_eq; eexists; (split; [reflexivity | vm_compute; reflexivity]).
Qed.

(** ** C4: draining the cache in [cachehash_free] *)

(** More fuel does not change what the walk yields. *)
Lemma free_walk_fuel fuel fuel' arena cb n r :
  free_walk fuel arena cb n = Some r → fuel ≤ fuel' →
  free_walk fuel' arena cb n = Some r.
Proof.
  revert fuel' n r. induction fuel as [|fuel IH]; intros fuel' n r; [done|].
  destruct fuel' as [|fuel']; [lia|]. simpl. intros H Hle.
  destruct (slot_of arena n ≫= (arena !!.)) as [nd|]; [|done].
  destruct (is_null (next nd)); [done|].
  destruct (free_walk fuel arena cb (next nd)) as [r'|] eqn:E; [|done].
  rewrite (IH fuel' (next nd) r' E) by lia. done.
Qed.

(** Every value the walk hands to the callback is the [data] of an
    occupied slot whose [next] is not NULL: the slot that ends the list is
    never drained. *)
Lemma free_walk_calls fuel arena cb n calls c v :
  free_walk fuel arena cb n = Some (Ret calls) → (c, v) ∈ calls →
  ∃ nd, nd ∈ arena ∧ next nd ≠ NULL ∧ is_Some (key nd) ∧ data nd = v
        ∧ cb = Some c.
Proof.
  revert n calls. induction fuel as [|fuel IH]; intros n calls; [done|].
  simpl. intros H Hin.
  destruct (slot_of arena n ≫= (arena !!.)) as [nd|] eqn:Hnd; [|done].
  destruct (is_null (next nd)) eqn:Hnull.
  { simplify_eq. by apply elem_of_nil in Hin. }
  destruct (free_walk fuel arena cb (next nd)) as [[rest| |]|] eqn:E;
    simplify_eq.
  apply elem_of_app in Hin as [Hin|Hin]; [|by eapply IH].
  exists nd. destruct (slot_of arena n) as [i|] eqn:Hi; [|done].
  simpl in Hnd. destruct (key nd), cb; try by apply elem_of_nil in Hin.
  apply list_elem_of_singleton in Hin. simplify_eq.
  repeat split; [by eapply list_elem_of_lookup_2| |by eexists].
  intros Hx. by rewrite Hx in Hnull.
Qed.

Lemma free_on_created_faults maxitems cb ch fuel cb' :
  cachehash_init maxitems cb = Ret ch →
  cachehash_free fuel ch cb' = Some Fault.
Proof.
  intros H. apply cachehash_init_Ret in H as (Hj & _).
  unfold cachehash_free. by rewrite Hj.
Qed.

(** C4. [cachehash_free] does not hand every stored value to the release
    callback.  On the cache [cachehash_init] returns it faults at
    [*ch->judy].  After two puts on a cache with an index, the walk
    releases the head's value and stops at the tail slot without
    draining it; the same happens on [filled2]. *)
Theorem free_skips_tail rm :
  cachehash_free 3 created2 (Some 9%nat) = Some Fault
  ∧ (∃ ch, run rm [Put "A" (Handle 1); Put "B" (Handle 2)] created2_indexed
           = Ret (tt, ch)
         ∧ currsize ch = 2%Z
         ∧ tail_key ch = Some "B"
         ∧ cachehash_free 3 ch (Some 9%nat) = Some (Ret [(9%nat, Handle 1)]))
  ∧ cachehash_free 3 filled2 (Some 9%nat) = Some (Ret [(9%nat, Handle 2)]).
Proof.
  split; [reflexivity|]. split; [|reflexivity].
  eexists. repeat split; vm_compute; reflexivity.
Qed.

(** ** C5: which key is evicted *)

(** [use] makes [n] the head without setting the [prev] of the old head:
    after the first [put] the head is slot 1, and slot 0, which follows
    it, still has [prev] NULL. *)
Example use_leaves_old_head_prev :
  ∃ ch, use (Slot 1) created2 = Ret (tt, ch)
      ∧ start ch = Slot 1
      ∧ rd next (Slot 1) ch = Ret (Slot 0, ch)
      ∧ rd prev (Slot 0) ch = Ret (NULL, ch).
Proof. eexists. repeat split; vm_compute; reflexivity. Qed.

(** C5. With capacity 2, putting ["A"], ["B"], ["C"] does not evict
    ["A"].  On the cache [cachehash_init] returns, the first [put]
    faults.  With an index, the second [put] leaves ["B"] in the tail
    slot, because [use] found the stale [prev] of that slot NULL and did
    not move it; the third [put] stops on [assert(rc)], since neither key
    reached the index.  Were both keys in the index, the eviction would
    take ["B"] and keep ["A"]. *)
Theorem eviction_order_broken rm :
  run rm [Put "A" (Handle 1)] created2 = Fault
  ∧ ∃ ch, run rm [Put "A" (Handle 1); Put "B" (Handle 2)] created2_indexed
          = Ret (tt, ch)
      ∧ tail_key ch = Some "B"
      ∧ cachehash_put rm "C" (Handle 3) ch = Abort
      ∧ ∃ ch',
          cachehash_evict_if_full
            (with_judy
               (Some (JArray (<["A" := Handle 1]> (<["B" := Handle 2]> ∅)))) ch)
          = Ret (Handle 2, ch')
          ∧ index_lookup ch' "A" = Some (Handle 1)
          ∧ index_lookup ch' "B" = None.
Proof.
  split; [reflexivity|].
  eexists. split; [vm_compute; reflexivity|].
  split; [reflexivity|]. split; [reflexivity|].
  eexists. repeat split; vm_compute; reflexivity.
Qed.

(** ** C6: the effect of [get] on the eviction order *)

Lemma cachehash_init_3 cb : cachehash_init 3 cb = Ret created3.
Proof. reflexivity. Qed.

(** C6. With capacity 3, putting ["A"], ["B"], ["C"], reading ["A"] and
    putting a fourth key does not evict ["B"].  On the cache
    [cachehash_init] returns, the first [put] faults.  With an index, the
    three puts return and [get] of ["A"] faults, the index being empty.
    Were the index to map each key to its slot, [get] would return the
    value of ["A"], and the slot evicted next would be that of ["C"]. *)
Theorem promotion_broken rm :
  cachehash_init 3 None = Ret created3
  ∧ run rm [Put "A" (Handle 1)] created3 = Fault
  ∧ ∃ ch, run rm [Put "A" (Handle 1); Put "B" (Handle 2); Put "C" (Handle 3)]
            created3_indexed = Ret (tt, ch)
      ∧ cachehash_get "A" ch = Fault
      ∧ ∃ ch1 ch2,
          cachehash_get "A"
            (with_judy
               (Some (JArray (<["A" := Slot 2]> (<["B" := Slot 1]>
                                (<["C" := Slot 0]> ∅))))) ch)
          = Ret (Handle 1, ch1)
          ∧ cachehash_evict_if_full ch1 = Ret (Handle 3, ch2)
          ∧ index_lookup ch2 "B" = Some (Slot 1)
          ∧ index_lookup ch2 "C" = None.
Proof.
  split; [reflexivity|]. split; [reflexivity|].
  eexists. split; [vm_compute; reflexivity|].
  split; [reflexivity|].
  eexists _, _. repeat split; vm_compute; reflexivity.
Qed.

(** * Further properties of the code *)

(** ** [use]: what it writes and where the slot ends up *)

Lemma proj_alter {B} (g : node_t → B) f t (l : list node_t) j :
  (t ≠ j ∨ ∀ x, g (f x) = g x) →
  g <$> (alter f t l !! j) = g <$> (l !! j).
Proof.
  intros H. rewrite list_lookup_alter. case_decide; [|done]. subst.
  destruct H; [done|]. destruct (l !! j); simpl; f_equal; auto.
Qed.

Lemma reread_next t (l : list node_t) i nd nd0 :
  l !! i = Some nd → alter (set_next (next nd)) t l !! i = Some nd0 →
  next nd0 = next nd.
Proof.
  rewrite list_lookup_alter. intros Hl. case_decide; subst; rewrite Hl; simpl;
    by intros [= <-].
Qed.

Ltac norm_slots :=
  repeat match goal with
  | H : slot_of (alter _ _ _) _ = _ |- _ => rewrite slot_of_alter in H
  end;
  simplify_eq;
  repeat match goal with
  | H1 : ?l !! ?i = Some ?nd,
    H2 : alter (set_next (next ?nd)) _ ?l !! ?i = Some ?nd0 |- _ =>
      let E := fresh "Hnx" in
      pose proof (reread_next _ _ _ _ _ H1 H2) as E; clear H2;
      rewrite E in *
  end.

(** X10. [use n] writes the [next] field of [n] and of the slot before
    [n] only, and the [prev] field of [n] and of the slot after [n] only.
    In particular the slot that was the head keeps its [prev] (NULL)
    unless it followed [n]. *)
Theorem use_only_relinks n ch u ch' i ndn j :
  use n ch = Ret (u, ch') →
  slot_of (malloced ch) n = Some i → malloced ch !! i = Some ndn →
  j ≠ i →
  (slot_of (malloced ch) (prev ndn) ≠ Some j →
   next <$> malloced ch' !! j = next <$> malloced ch !! j)
  ∧ (slot_of (malloced ch) (next ndn) ≠ Some j →
     prev <$> malloced ch' !! j = prev <$> malloced ch !! j).
Proof.
  unfold use. intros H Hi Hn Hj. inv_M_cases; [done| |]; norm_slots;
    split; intros;
    rewrite !proj_alter by (first [by right | left; congruence]); done.
Qed.

Lemma use_only_relinks_witness :
  ∃ ch', use (Slot 0) filled2 = Ret (tt, ch')
    ∧ start ch' = Slot 0
    ∧ prev <$> malloced ch' !! 1%nat = prev <$> malloced filled2 !! 1%nat.
Proof.
  eexists. split; [vm_compute; reflexivity|]. split; [reflexivity|].
  match goal with |- prev <$> malloced ?c !! _ = _ =>
    refine (proj2 (use_only_relinks (Slot 0) filled2 tt c 0
                     {| next := NULL; prev := Slot 1; key := Some "A";
                        data := Handle 1 |} 1 _ _ _ _) _)
  end;
    [vm_compute; reflexivity | reflexivity | reflexivity | discriminate
    | discriminate].
Defined.

Lemma use_head_noop n ch i ndn :
  slot_of (malloced ch) n = Some i → malloced ch !! i = Some ndn →
  prev ndn = NULL → use n ch = Ret (tt, ch).
Proof.
  intros Hi Hn Hp. destruct (slot_of_Some _ _ _ Hi) as [-> _].
  unfold use. rewrite (bind_eq _ _ _ tt ch) by done.
  rewrite (bind_eq _ _ _ _ _ (rd_eq prev _ _ _ _ Hi Hn)).
  by rewrite Hp.
Qed.

Ltac null_cases :=
  repeat match goal with
  | H : is_null ?p = true |- _ =>
      destruct p eqn:?; simpl in H; [clear H|discriminate H|discriminate H]
  end.

Ltac solve_lookups :=
  intros; simplify_eq/=;
  repeat match goal with
  | H : slot_of _ _ = Some _ |- _ =>
      let E := fresh "Hl" in
      destruct (slot_of_Some _ _ _ H) as [_ [? E]]; revert H
  end; intros;
  repeat (rewrite list_lookup_alter; case_decide; simplify_eq);
  repeat match goal with H : _ !! _ = Some _ |- _ => rewrite H end;
  try done.

(** X11. When [n] is a slot with a non-null [prev], [use n] makes [n]
    the head: [start] is [n], its [next] is the old [start] and its
    [prev] is NULL.  The slot before [n] gets the old [next] of [n], the
    slot after [n] gets the old [prev] of [n], and [end] becomes that
    [prev] when [n] was last. *)
Theorem use_moves_to_front n ch u ch' i ndn :
  use n ch = Ret (u, ch') →
  slot_of (malloced ch) n = Some i → malloced ch !! i = Some ndn →
  prev ndn ≠ NULL →
  start ch' = n
  ∧ next <$> malloced ch' !! i = Some (start ch)
  ∧ prev <$> malloced ch' !! i = Some NULL
  ∧ end_ ch' = (if is_null (next ndn) then prev ndn else end_ ch)
  ∧ (∀ ip, slot_of (malloced ch) (prev ndn) = Some ip → ip ≠ i →
       next <$> malloced ch' !! ip = Some (next ndn))
  ∧ (∀ ix, slot_of (malloced ch) (next ndn) = Some ix → ix ≠ i →
       prev <$> malloced ch' !! ix = Some (prev ndn)).
Proof.
  unfold use. intros H Hi Hn Hp. inv_M_cases; norm_slots; null_cases;
    [done| |]; repeat split; solve_lookups.
  all: match goal with H : is_null ?p = false |- _ => by rewrite H end.
Qed.

Lemma use_moves_to_front_witness :
  ∃ ch', use (Slot 0) filled2 = Ret (tt, ch')
    ∧ start ch' = Slot 0
    ∧ next <$> malloced ch' !! 0%nat = Some (start filled2)
    ∧ end_ ch' = Slot 1.
Proof.
  eexists. split; [vm_compute; reflexivity|].
  match goal with |- start ?c = _ ∧ _ =>
    destruct (use_moves_to_front (Slot 0) filled2 tt c 0
                {| next := NULL; prev := Slot 1; key := Some "A";
                   data := Handle 1 |})
      as (Hs & Hn & _ & He & _)
  end;
    [vm_compute; reflexivity | reflexivity | reflexivity | discriminate |].
  split; [exact Hs|]. split; [exact Hn|exact He].
Defined.

(** ** [evict] and [cachehash_evict_if_full] *)

Lemma evict_if_full_full ch :
  currsize ch = maxsize ch → cachehash_evict_if_full ch = evict ch.
Proof.
  intros Hfull. unfold cachehash_evict_if_full, eviction_needed.
  rewrite (bind_eq _ _ _ true ch); [done|].
  unfold gets. by rewrite bool_decide_eq_true_2.
Qed.

Lemma evict_Ret ch m i nd w :
  judy ch = Some (JArray m) →
  slot_of (malloced ch) (end_ ch) = Some i → malloced ch !! i = Some nd →
  m !! key_bytes nd = Some w →
  evict ch =
    Ret (data nd,
         with_currsize ((currsize ch - 1) mod two64)
           (with_malloced
              (alter (set_key None) i (alter (set_data NULL) i (malloced ch)))
              (with_judy (Some (JArray (delete (key_bytes nd) m))) ch))).
Proof.
  intros Hj Hie Hnd Hw. unfold evict.
  rewrite (bind_eq _ _ _ (end_ ch) ch) by done.
  rewrite (bind_eq _ _ _ m ch) by (unfold rd_judy; by rewrite Hj).
  rewrite (bind_eq _ _ _ _ _ (rd_eq key_bytes _ _ _ _ Hie Hnd)).
  rewrite bool_decide_eq_true_2 by eauto.
  rewrite assert_true_bind.
  rewrite (bind_eq _ _ _ tt (with_judy (Some (JArray (delete (key_bytes nd) m))) ch))
    by (unfold wr_judy; by rewrite Hj).
  set (ch1 := with_judy _ ch).
  assert (Hie1 : slot_of (malloced ch1) (end_ ch) = Some i) by done.
  assert (Hnd1 : malloced ch1 !! i = Some nd) by done.
  rewrite (bind_eq _ _ _ _ _ (rd_eq data _ _ _ _ Hie1 Hnd1)).
  rewrite (bind_eq _ _ _ _ _ (wr_eq _ _ _ _ Hie1)).
  set (ch2 := with_malloced _ ch1).
  assert (Hie2 : slot_of (malloced ch2) (end_ ch) = Some i)
    by (unfold ch2; by rewrite malloced_with_malloced, slot_of_alter).
  rewrite (bind_eq _ _ _ _ _ (wr_eq _ _ _ _ Hie2)).
  rewrite (bind_eq _ _ _ tt _) by reflexivity.
  reflexivity.
Qed.

Lemma evict_Abort ch m i nd :
  judy ch = Some (JArray m) →
  slot_of (malloced ch) (end_ ch) = Some i → malloced ch !! i = Some nd →
  m !! key_bytes nd = None →
  evict ch = Abort.
Proof.
  intros Hj Hie Hnd Hw. unfold evict.
  rewrite (bind_eq _ _ _ (end_ ch) ch) by done.
  rewrite (bind_eq _ _ _ m ch) by (unfold rd_judy; by rewrite Hj).
  rewrite (bind_eq _ _ _ _ _ (rd_eq key_bytes _ _ _ _ Hie Hnd)).
  rewrite bool_decide_eq_false_2 by (intros [? ?]; congruence).
  apply assert_false_bind.
Qed.

(* X: evict spec *)
(** X7. On a full cache whose tail slot holds a key of the index,
    [evict_if_full] returns the [data] of that slot, deletes that key and
    no other from the index, clears the key and data of the slot, leaves
    every other slot and both list ends as they were, and takes one off
    [currsize]. *)
Theorem evict_if_full_evicts_tail ch m i nd w :
  currsize ch = maxsize ch →
  judy ch = Some (JArray m) →
  slot_of (malloced ch) (end_ ch) = Some i → malloced ch !! i = Some nd →
  m !! key_bytes nd = Some w →
  ∃ ch', cachehash_evict_if_full ch = Ret (data nd, ch')
    ∧ index_lookup ch' (key_bytes nd) = None
    ∧ (∀ k, k ≠ key_bytes nd → index_lookup ch' k = m !! k)
    ∧ malloced ch' = <[i := set_key None (set_data NULL nd)]> (malloced ch)
    ∧ currsize ch' = ((currsize ch - 1) mod two64)%Z
    ∧ start ch' = start ch ∧ end_ ch' = end_ ch
    ∧ maxsize ch' = maxsize ch ∧ evict_cb ch' = evict_cb ch.
Proof.
  intros Hfull Hj Hie Hnd Hw.
  rewrite (evict_if_full_full ch Hfull), (evict_Ret ch m i nd w) by done.
  eexists. split; [reflexivity|].
  unfold index_lookup; simpl. repeat split; try reflexivity.
  - apply lookup_delete_eq.
  - intros k Hk. by apply lookup_delete_ne.
  - apply list_eq. intros j. rewrite !list_lookup_alter, list_lookup_insert.
    pose proof (lookup_lt_Some _ _ _ Hnd).
    repeat case_decide; destruct_and?; simplify_eq; rewrite ?Hnd;
      try done; exfalso; auto.
Qed.

Lemma evict_if_full_evicts_tail_witness :
  currsize filled2 = maxsize filled2
  ∧ judy filled2
    = Some (JArray (<["A" := Slot 0]> (<["B" := Slot 1]> ∅)))
  ∧ ∃ ch', cachehash_evict_if_full filled2 = Ret (Handle 1, ch')
      ∧ index_lookup ch' "A" = None
      ∧ index_lookup ch' "B" = Some (Slot 1).
Proof.
  split; [reflexivity|]. split; [reflexivity|].
  destruct (evict_if_full_evicts_tail filled2
              (<["A" := Slot 0]> (<["B" := Slot 1]> ∅)) 0
              {| next := NULL; prev := Slot 1; key := Some "A";
                 data := Handle 1 |} (Slot 0))
    as (ch' & Hret & Hgone & Hkept & _); try reflexivity.
  exists ch'. split; [exact Hret|]. split; [exact Hgone|].
  rewrite (Hkept "B"); [reflexivity|discriminate].
Defined.

(** X8. On a full cache whose tail slot holds a key the index does not
    have, [evict_if_full] stops on [assert(rc)]. *)
Theorem evict_if_full_unindexed_tail_aborts ch m i nd :
  currsize ch = maxsize ch →
  judy ch = Some (JArray m) →
  slot_of (malloced ch) (end_ ch) = Some i → malloced ch !! i = Some nd →
  m !! key_bytes nd = None →
  cachehash_evict_if_full ch = Abort.
Proof.
  intros Hfull Hj Hie Hnd Hw.
  rewrite (evict_if_full_full ch Hfull). by eapply evict_Abort.
Qed.

Lemma evict_if_full_unindexed_tail_aborts_witness :
  currsize filled2_unindexed = maxsize filled2_unindexed
  ∧ judy filled2_unindexed = Some (JArray ∅)
  ∧ cachehash_evict_if_full filled2_unindexed = Abort.
Proof.
  split; [reflexivity|]. split; [reflexivity|].
  apply (evict_if_full_unindexed_tail_aborts filled2_unindexed ∅ 0
           {| next := NULL; prev := Slot 1; key := Some "A";
              data := Handle 1 |}); reflexivity.
Defined.

(** X9. [evict_if_full] evicts at most one entry: called again right
    after a call that returned, it returns NULL and changes nothing. *)
Theorem evict_if_full_twice ch v ch1 :
  (0 < maxsize ch < two64)%Z → (0 ≤ currsize ch ≤ maxsize ch)%Z →
  cachehash_evict_if_full ch = Ret (v, ch1) →
  cachehash_evict_if_full ch1 = Ret (NULL, ch1).
Proof.
  rewrite two64_val. intros Hm Hs H.
  apply evict_if_full_size in H as (Hm1 & _ & Hs1).
  apply evict_if_full_unneeded. rewrite Hm1, Hs1, two64_val.
  case_bool_decide; [|done].
  rewrite Z.mod_small by lia. lia.
Qed.

Lemma evict_if_full_twice_witness :
  (0 < maxsize filled2 < two64)%Z
  ∧ (0 ≤ currsize filled2 ≤ maxsize filled2)%Z
  ∧ ∃ ch1, cachehash_evict_if_full filled2 = Ret (Handle 1, ch1)
      ∧ cachehash_evict_if_full ch1 = Ret (NULL, ch1).
Proof.
  split; [vm_compute; split; reflexivity|].
  split; [vm_compute; split; discriminate|].
  eexists. split; [vm_compute; reflexivity|].
  apply (evict_if_full_twice filled2 (Handle 1));
    [vm_compute; split; reflexivity
    |vm_compute; split; discriminate
    |vm_compute; reflexivity].
Defined.


Lemma evict_if_full_inv ch ev ch1 :
  cachehash_evict_if_full ch = Ret (ev, ch1) →
  (currsize ch ≠ maxsize ch ∧ ev = NULL ∧ ch1 = ch)
  ∨ (currsize ch = maxsize ch
     ∧ ∃ m i nd w,
         judy ch = Some (JArray m)
         ∧ slot_of (malloced ch) (end_ ch) = Some i
         ∧ malloced ch !! i = Some nd
         ∧ m !! key_bytes nd = Some w
         ∧ ev = data nd
         ∧ ch1 = with_currsize ((currsize ch - 1) mod two64)
                   (with_malloced
                      (alter (set_key None) i
                         (alter (set_data NULL) i (malloced ch)))
                      (with_judy (Some (JArray (delete (key_bytes nd) m))) ch))).
Proof.
  intros H. destruct (decide (currsize ch = maxsize ch)) as [Hfull|Hne].
  - right. split; [done|]. rewrite (evict_if_full_full ch Hfull) in H.
    pose proof H as H'. unfold evict in H'. inv_M.
    match goal with H : bool_decide _ = true |- _ =>
      apply bool_decide_eq_true_1 in H as [w Hw] end.
    norm_slots.
    match goal with
    | Hj : judy ch = Some (JArray ?m), Hi : slot_of _ _ = Some ?i,
      Hn : malloced ch !! ?i = Some ?nd |- _ =>
        exists m, i, nd, w; rewrite (evict_Ret ch m i nd w Hj Hi Hn Hw) in H
    end.
    by simplify_eq.
  - left. rewrite (evict_if_full_unneeded ch Hne) in H. by simplify_eq.
Qed.

(** ** [cachehash_put] step by step *)

Lemma put_Ret_inv rm k v ch calls ch' :
  cachehash_put rm k v ch = Ret (calls, ch') →
  ∃ ev ch1 e ch3,
    k ≠ EmptyString
    ∧ cachehash_evict_if_full ch = Ret (ev, ch1)
    ∧ calls = callback_calls (evict_cb ch1) ev
    ∧ slot_of (malloced ch1) (end_ ch1) = Some e
    ∧ use (end_ ch1)
        (with_malloced
           (alter (set_data v) e (alter (set_key (Some k)) e (malloced ch1)))
           ch1) = Ret (tt, ch3)
    ∧ put_index rm k v (with_currsize ((currsize ch3 + 1) mod two64) ch3)
      = Ret (tt, ch').
Proof.
  unfold cachehash_put. intros H. inv_M. norm_slots.
  match goal with H : negb (k =? "")%string = true |- _ =>
    apply negb_true_iff, String.eqb_neq in H end.
  repeat match goal with u : unit |- _ => destruct u end.
  eexists _, _, _, _. repeat split; eauto.
Qed.

Lemma put_index_inv rm k v ch u ch' :
  put_index rm k v ch = Ret (u, ch') →
  ∃ m, judy ch = Some (JArray m)
    ∧ ((m !! k = Some NULL ∧ ch' = with_judy (Some (JArray (<[k:=v]> m))) ch)
       ∨ (m !! k = None ∧ m = ∅ ∧ ch' = ch)
       ∨ (m !! k = None ∧ m ≠ ∅ ∧ rm m k = true
          ∧ ch' = with_judy (Some JDangling) ch)
       ∨ (m !! k = None ∧ m ≠ ∅ ∧ rm m k = false
          ∧ ch' = with_judy (Some (JArray (<[k:=v]> m))) ch)).
Proof.
  unfold put_index. intros H. inv_M. eexists; split; [done|].
  case_match; inv_M_cases; null_cases.
  - by left.
  - right; left. by rewrite bool_decide_eq_true in *.
  - right; right; left. by rewrite bool_decide_eq_false in *.
  - right; right; right. by rewrite bool_decide_eq_false in *.
Qed.

(** X15. A [put] that returns called the eviction callback at most
    once: exactly when the cache was full, the struct has a callback and
    the [data] of the tail slot was not NULL, and then with that
    [data]. *)
Theorem put_calls rm k v ch calls ch' i nd :
  cachehash_put rm k v ch = Ret (calls, ch') →
  slot_of (malloced ch) (end_ ch) = Some i → malloced ch !! i = Some nd →
  calls = if bool_decide (currsize ch = maxsize ch)
          then callback_calls (evict_cb ch) (data nd) else [].
Proof.
  intros H Hi Hn.
  apply put_Ret_inv in H as (ev & ch1 & e & ch3 & _ & Hev & -> & _).
  apply evict_if_full_inv in Hev
    as [(Hne & -> & ->)|(Hfull & m & i' & nd' & w & ? & ? & ? & ? & -> & ->)].
  - rewrite bool_decide_eq_false_2 by done.
    unfold callback_calls. by destruct (evict_cb ch).
  - rewrite bool_decide_eq_true_2 by done. by simplify_eq.
Qed.

Lemma put_calls_witness :
  ∃ ch', cachehash_put no_moves "C" (Handle 3) filled2_cb
         = Ret ([(7%nat, Handle 1)], ch')
    ∧ slot_of (malloced filled2_cb) (end_ filled2_cb) = Some 0%nat
    ∧ [(7%nat, Handle 1)]
      = (if bool_decide (currsize filled2_cb = maxsize filled2_cb)
         then callback_calls (evict_cb filled2_cb) (Handle 1) else []).
Proof.
  eexists. split; [vm_compute; reflexivity|]. split; [reflexivity|].
  eapply (put_calls no_moves "C" (Handle 3) filled2_cb _ _ 0
            {| next := NULL; prev := Slot 1; key := Some "A";
               data := Handle 1 |});
    [vm_compute; reflexivity | reflexivity | reflexivity].
Defined.

Lemma put_leaves_word rm k v ch calls ch' :
  cachehash_put rm k v ch = Ret (calls, ch') →
  index_lookup ch' k = None ∨ index_lookup ch' k = Some v.
Proof.
  intros H.
  apply put_Ret_inv in H as (ev & ch1 & e & ch3 & _ & _ & _ & _ & _ & Hidx).
  apply put_index_inv in Hidx
    as (m & Hj & [(? & ->)|[(? & ? & ->)|[(? & ? & ? & ->)|(? & ? & ? & ->)]]]);
    unfold index_lookup; simpl.
  - right. apply lookup_insert_eq.
  - left. simpl in Hj. by rewrite Hj.
  - by left.
  - right. apply lookup_insert_eq.
Qed.

(** X19. If the index holds the key after a [put] that returned, the
    word it holds is the value that was put, not the address of the
    slot. *)
Theorem put_index_word rm k v ch calls ch' w :
  cachehash_put rm k v ch = Ret (calls, ch') →
  index_lookup ch' k = Some w → w = v.
Proof.
  intros H Hw. destruct (put_leaves_word _ _ _ _ _ _ H); congruence.
Qed.

Lemma put_index_word_witness :
  ∃ ch', cachehash_put no_moves "C" (Handle 3) filled2 = Ret ([], ch')
    ∧ index_lookup ch' "C" = Some (Handle 3)
    ∧ Handle 3 = Handle 3.
Proof.
  eexists. split; [vm_compute; reflexivity|]. split; [vm_compute; reflexivity|].
  eapply (put_index_word no_moves "C" (Handle 3) filled2 [] _ (Handle 3));
    vm_compute; reflexivity.
Defined.

Lemma lookup_word_fault_get k ch h :
  (index_lookup ch k = None ∨ index_lookup ch k = Some (Handle h)) →
  k ≠ EmptyString →
  cachehash_get k ch = Fault ∧ cachehash_has k ch = Fault.
Proof.
  intros Hw Hk.
  unfold cachehash_has, cachehash_get, judy_get, rd_judy, wr_judy,
    mbind, M_bind, assert, mret, M_ret, index_lookup in *.
  rewrite (eqb_empty_false k Hk). simpl.
  destruct (judy ch) as [[m|]|] eqn:E; simpl; rewrite ?E; [|done|done].
  destruct Hw as [-> | ->]; done.
Qed.

(** X20. After a [put] of a key with a value that is a handle returned,
    in whatever state, [get] and [has] with that key fault: the key is
    not in the index, or the index yields the handle and it is
    dereferenced as a slot. *)
Theorem get_after_put_handle_faults rm k h ch calls ch' :
  cachehash_put rm k (Handle h) ch = Ret (calls, ch') →
  cachehash_get k ch' = Fault ∧ cachehash_has k ch' = Fault.
Proof.
  intros H.
  pose proof (put_leaves_word _ _ _ _ _ _ H) as Hw.
  apply put_Ret_inv in H as (? & ? & ? & ? & Hk & _).
  by apply (lookup_word_fault_get k ch' h).
Qed.

Lemma get_after_put_handle_faults_witness :
  ∃ ch', cachehash_put no_moves "C" (Handle 3) filled2 = Ret ([], ch')
    ∧ cachehash_get "C" ch' = Fault ∧ cachehash_has "C" ch' = Fault.
Proof.
  eexists. split; [vm_compute; reflexivity|].
  eapply (get_after_put_handle_faults no_moves "C" 3 filled2 [] _).
  vm_compute; reflexivity.
Defined.

(** X21. A [put] on a cache with an empty index that returns leaves the
    index empty (the array [JHSI] built is reachable from the local root
    only); the cache was not full and no callback was called. *)
Theorem put_on_empty_index_lost rm k v ch calls ch' :
  judy ch = Some (JArray ∅) →
  cachehash_put rm k v ch = Ret (calls, ch') →
  judy ch' = Some (JArray ∅) ∧ currsize ch ≠ maxsize ch ∧ calls = [].
Proof.
  intros Hj H.
  apply put_Ret_inv in H
    as (ev & ch1 & e & ch3 & _ & Hev & -> & _ & Huse & Hidx).
  apply evict_if_full_inv in Hev
    as [(Hne & -> & ->)|(Hfull & m & i' & nd' & w & ? & ? & ? & Hw & -> & ->)].
  - apply use_frame in Huse as (Hj3 & _). simpl in Hj3.
    apply put_index_inv in Hidx
      as (m & Hjm & [(Hk & ->)|[(? & ? & ->)|[(? & ? & ? & ->)|(? & ? & ? & ->)]]]);
      simpl in *; rewrite Hj3, Hj in Hjm; simplify_eq.
    rewrite Hj3, Hj. repeat split; try done.
    unfold callback_calls. by destruct (evict_cb _).
  - simplify_eq.
Qed.

Lemma put_on_empty_index_lost_witness :
  judy created2_indexed = Some (JArray ∅)
  ∧ ∃ ch', cachehash_put no_moves "A" (Handle 1) created2_indexed
           = Ret ([], ch')
      ∧ judy ch' = Some (JArray ∅).
Proof.
  split; [reflexivity|].
  eexists. split; [vm_compute; reflexivity|].
  match goal with |- judy ?c = _ =>
    destruct (put_on_empty_index_lost no_moves "A" (Handle 1)
                created2_indexed [] c) as (Hj & _)
  end; [reflexivity|vm_compute; reflexivity|].
  exact Hj.
Defined.

Lemma use_payload n ch u ch' j :
  use n ch = Ret (u, ch') →
  key <$> malloced ch' !! j = key <$> malloced ch !! j
  ∧ data <$> malloced ch' !! j = data <$> malloced ch !! j.
Proof.
  unfold use. intros H. inv_M_cases; [done| |];
    split; rewrite !proj_alter by (by right); done.
Qed.

Lemma put_index_arena rm k v ch u ch' :
  put_index rm k v ch = Ret (u, ch') →
  malloced ch' = malloced ch ∧ start ch' = start ch ∧ end_ ch' = end_ ch.
Proof.
  intros H. apply put_index_inv in H
    as (m & Hjm & [(? & ->)|[(? & ? & ->)|[(? & ? & ? & ->)|(? & ? & ? & ->)]]]);
    done.
Qed.

Lemma evict_if_full_arena ch ev ch1 :
  cachehash_evict_if_full ch = Ret (ev, ch1) →
  start ch1 = start ch ∧ end_ ch1 = end_ ch
  ∧ length (malloced ch1) = length (malloced ch)
  ∧ ∀ j,
      next <$> malloced ch1 !! j = next <$> malloced ch !! j
      ∧ prev <$> malloced ch1 !! j = prev <$> malloced ch !! j
      ∧ (slot_of (malloced ch) (end_ ch) ≠ Some j →
         malloced ch1 !! j = malloced ch !! j).
Proof.
  intros H. apply evict_if_full_inv in H
    as [(Hne & -> & ->)|(Hfull & m & i & nd & w & ? & Hi & ? & ? & -> & ->)];
    [done|].
  simpl. rewrite !length_alter. repeat split.
  - rewrite !proj_alter by (by right). done.
  - rewrite !proj_alter by (by right). done.
  - intros Hj. rewrite !list_lookup_alter_ne by congruence. done.
Qed.

(** X16. A [put] that returns has written the key and the value into
    the slot [end] pointed to when it was called, whether that slot was
    free or not, and has left the key and data of every other slot
    alone. *)
Theorem put_payload rm k v ch calls ch' e :
  cachehash_put rm k v ch = Ret (calls, ch') →
  slot_of (malloced ch) (end_ ch) = Some e →
  key <$> malloced ch' !! e = Some (Some k)
  ∧ data <$> malloced ch' !! e = Some v
  ∧ ∀ j, j ≠ e →
      key <$> malloced ch' !! j = key <$> malloced ch !! j
      ∧ data <$> malloced ch' !! j = data <$> malloced ch !! j.
Proof.
  intros H He.
  apply put_Ret_inv in H
    as (ev & ch1 & e1 & ch3 & _ & Hev & _ & He1 & Huse & Hidx).
  apply put_index_arena in Hidx as (-> & _). simpl.
  apply evict_if_full_arena in Hev as (_ & Hend & Hlen & Hev).
  assert (e1 = e) as ->.
  { rewrite Hend in He1. unfold slot_of in *. rewrite Hlen in He1. congruence. }
  destruct (slot_of_Some _ _ _ He1) as [_ [nd1 Hnd1]].
  pose proof (λ j, use_payload _ _ _ _ j Huse) as Hp. simpl in Hp.
  repeat split.
  - destruct (Hp e) as [-> _]. by rewrite !list_lookup_alter_eq, Hnd1.
  - destruct (Hp e) as [_ ->]. by rewrite !list_lookup_alter_eq, Hnd1.
  - destruct (Hp j) as [-> _]. rewrite !list_lookup_alter_ne by done.
    destruct (Hev j) as (_ & _ & ->); [done|congruence].
  - destruct (Hp j) as [_ ->]. rewrite !list_lookup_alter_ne by done.
    destruct (Hev j) as (_ & _ & ->); [done|congruence].
Qed.

Lemma put_payload_witness :
  ∃ ch', cachehash_put no_moves "C" (Handle 3) filled2 = Ret ([], ch')
    ∧ slot_of (malloced filled2) (end_ filled2) = Some 0%nat
    ∧ key <$> malloced ch' !! 0%nat = Some (Some "C")
    ∧ data <$> malloced ch' !! 0%nat = Some (Handle 3).
Proof.
  eexists. split; [vm_compute; reflexivity|]. split; [reflexivity|].
  match goal with |- key <$> malloced ?c !! _ = _ ∧ _ =>
    destruct (put_payload no_moves "C" (Handle 3) filled2 [] c 0)
      as (Hk & Hd & _)
  end; [vm_compute; reflexivity|reflexivity|].
  split; [exact Hk|exact Hd].
Defined.

(** X17. A [put] that returns adds one to [currsize] when the cache was
    not full and leaves it at [maxsize] when it was. *)
Theorem put_currsize rm k v ch calls ch' :
  (0 < maxsize ch < two64)%Z → (0 ≤ currsize ch ≤ maxsize ch)%Z →
  cachehash_put rm k v ch = Ret (calls, ch') →
  currsize ch' = (if bool_decide (currsize ch = maxsize ch)
                  then currsize ch else currsize ch + 1)%Z.
Proof.
  rewrite two64_val. intros Hm Hs H.
  apply put_size in H as (_ & _ & ->). rewrite two64_val.
  case_bool_decide.
  - rewrite (Z.mod_small (currsize ch - 1)) by lia.
    rewrite Z.mod_small by lia. lia.
  - rewrite Z.mod_small by lia. lia.
Qed.

Lemma put_currsize_witness :
  (0 < maxsize half_filled2 < two64)%Z
  ∧ (0 ≤ currsize half_filled2 ≤ maxsize half_filled2)%Z
  ∧ ∃ ch', cachehash_put no_moves "B" (Handle 2) half_filled2 = Ret ([], ch')
      ∧ currsize ch' = 2%Z.
Proof.
  split; [vm_compute; split; reflexivity|].
  split; [vm_compute; split; discriminate|].
  eexists. split; [vm_compute; reflexivity|].
  eapply (put_currsize no_moves "B" (Handle 2) half_filled2 [] _);
    [vm_compute; split; reflexivity
    |vm_compute; split; discriminate
    |vm_compute; reflexivity].
Defined.

(** X18. When the slot [end] points to has [prev] NULL, a [put] that
    returns leaves the new entry in that slot at the tail: [start],
    [end] and every link are unchanged, so the key just put is the next
    one to be evicted. *)
Theorem put_stuck_tail rm k v ch calls ch' e nd :
  cachehash_put rm k v ch = Ret (calls, ch') →
  slot_of (malloced ch) (end_ ch) = Some e → malloced ch !! e = Some nd →
  prev nd = NULL →
  end_ ch' = end_ ch ∧ start ch' = start ch ∧ tail_key ch' = Some k
  ∧ ∀ j, next <$> malloced ch' !! j = next <$> malloced ch !! j
         ∧ prev <$> malloced ch' !! j = prev <$> malloced ch !! j.
Proof.
  intros H He Hnd Hprev.
  apply put_Ret_inv in H
    as (ev & ch1 & e1 & ch3 & _ & Hev & _ & He1 & Huse & Hidx).
  apply put_index_arena in Hidx as (Ha & Hs & Hen).
  apply evict_if_full_arena in Hev as (Hs1 & Hend & Hlen & Hev).
  assert (e1 = e) as ->.
  { rewrite Hend in He1. unfold slot_of in *. rewrite Hlen in He1. congruence. }
  destruct (slot_of_Some _ _ _ He1) as [_ [nd1 Hnd1]].
  assert (Hp1 : prev nd1 = NULL).
  { destruct (Hev e) as (_ & Hp & _). rewrite Hnd1, Hnd in Hp. simpl in Hp.
    congruence. }
  rewrite (use_head_noop _ _ e (set_data v (set_key (Some k) nd1))) in Huse.
  - simplify_eq. unfold tail_key. rewrite Ha, Hen, Hs. simpl in *.
    rewrite Hend, slot_of_alter, slot_of_alter.
    rewrite Hend in He1. rewrite He1. simpl.
    rewrite !list_lookup_alter_eq, Hnd1. simpl.
    repeat split; try done; rewrite ?Hs1; try done;
      rewrite !proj_alter by (by right); apply Hev.
  - simpl. by rewrite !slot_of_alter.
  - simpl. by rewrite !list_lookup_alter_eq, Hnd1.
  - done.
Qed.

Lemma put_stuck_tail_witness :
  ∃ ch', cachehash_put no_moves "B" (Handle 2) half_filled2 = Ret ([], ch')
    ∧ slot_of (malloced half_filled2) (end_ half_filled2) = Some 0%nat
    ∧ end_ ch' = end_ half_filled2 ∧ start ch' = start half_filled2
    ∧ tail_key ch' = Some "B".
Proof.
  eexists. split; [vm_compute; reflexivity|]. split; [reflexivity|].
  match goal with |- end_ ?c = _ ∧ _ =>
    destruct (put_stuck_tail no_moves "B" (Handle 2) half_filled2 [] c 0
                {| next := NULL; prev := NULL; key := None; data := NULL |})
      as (He & Hs & Ht & _)
  end;
    [vm_compute; reflexivity | reflexivity | reflexivity | reflexivity |].
  split; [exact He|]. split; [exact Hs|exact Ht].
Defined.

(** ** [cachehash_get] against [cachehash_has] *)

Lemma judy_get_Ret k ch n ch' :
  judy_get k ch = Ret (n, ch') →
  ch' = ch ∧ k ≠ EmptyString ∧ index_lookup ch k = Some n.
Proof.
  intros H. pose proof (judy_get_unchanged _ _ _ _ H) as ->.
  unfold judy_get in H. inv_M. case_match; inv_M.
  match goal with H : negb (k =? "")%string = true |- _ =>
    apply negb_true_iff, String.eqb_neq in H end.
  unfold index_lookup.
  match goal with H : judy ch = _ |- _ => rewrite H end. done.
Qed.

(** X13. Whenever [get] returns a value, [has] with the same key on the
    cache before the call returns that value: promoting the slot does
    not change what is read. *)
Theorem get_agrees_with_has k ch v ch' :
  cachehash_get k ch = Ret (v, ch') → cachehash_has k ch = Ret (v, ch).
Proof.
  unfold cachehash_get, cachehash_has. intros H. inv_M.
  match goal with H : judy_get _ _ = Ret _ |- _ =>
    pose proof (judy_get_Ret _ _ _ _ H) as (-> & Hk & _);
    rewrite (bind_eq _ _ _ tt ch) by (by rewrite (eqb_empty_false k Hk));
    rewrite (bind_eq _ _ _ _ _ H)
  end.
  inv_M_cases; [done|].
  match goal with
  | Hu : use _ _ = Ret _, Hl : malloced _ !! ?i = Some ?nd |- _ =>
      pose proof (use_payload _ _ _ _ i Hu) as [_ Hd];
      pose proof (use_frame _ _ _ _ Hu) as (_ & _ & _ & _ & Hlen);
      rewrite Hl in Hd
  end.
  match goal with
  | Hs : slot_of (malloced _) ?n = Some ?i |- rd data ?n ?c = _ =>
      unfold slot_of in Hs; rewrite Hlen in Hs;
      destruct (malloced c !! i) as [nd0|] eqn:Hnd0; [|done];
      rewrite (rd_eq data n c i nd0 Hs Hnd0)
  end.
  simpl in Hd. injection Hd as ->. done.
Qed.

Lemma get_agrees_with_has_witness :
  ∃ ch', cachehash_get "A" filled2 = Ret (Handle 1, ch')
    ∧ cachehash_has "A" filled2 = Ret (Handle 1, filled2).
Proof.
  eexists. split; [vm_compute; reflexivity|].
  eapply (get_agrees_with_has "A" filled2 (Handle 1) _).
  vm_compute; reflexivity.
Defined.

(** X14. [get] changes list links only: the index, [currsize],
    [maxsize], the callback and the key and data of every slot are what
    they were. *)
Theorem get_only_relinks k ch v ch' :
  cachehash_get k ch = Ret (v, ch') →
  judy ch' = judy ch ∧ currsize ch' = currsize ch ∧ maxsize ch' = maxsize ch
  ∧ evict_cb ch' = evict_cb ch
  ∧ ∀ j, key <$> malloced ch' !! j = key <$> malloced ch !! j
         ∧ data <$> malloced ch' !! j = data <$> malloced ch !! j.
Proof.
  unfold cachehash_get. intros H. inv_M.
  match goal with H : judy_get _ _ = Ret _ |- _ =>
    apply judy_get_unchanged in H as -> end.
  inv_M_cases; [done|].
  match goal with Hu : use _ _ = Ret _ |- _ =>
    pose proof (use_frame _ _ _ _ Hu) as (? & ? & ? & ? & _);
    pose proof (λ j, use_payload _ _ _ _ j Hu)
  end.
  done.
Qed.

Lemma get_only_relinks_witness :
  ∃ ch', cachehash_get "A" filled2 = Ret (Handle 1, ch')
    ∧ judy ch' = judy filled2 ∧ currsize ch' = currsize filled2.
Proof.
  eexists. split; [vm_compute; reflexivity|].
  match goal with |- judy ?c = _ ∧ _ =>
    destruct (get_only_relinks "A" filled2 (Handle 1) c) as (Hj & Hc & _)
  end; [vm_compute; reflexivity|].
  split; [exact Hj|exact Hc].
Defined.

(** X12. With an empty key, [has], [get] and [put] stop on
    [assert(keylen)] in every state, before anything is read or
    written. *)
Theorem empty_key_aborts rm v ch :
  cachehash_has EmptyString ch = Abort
  ∧ cachehash_get EmptyString ch = Abort
  ∧ cachehash_put rm EmptyString v ch = Abort.
Proof. done. Qed.

(** ** The cache [cachehash_init] returns *)

Lemma get_without_index k ch r :
  judy ch = None → cachehash_get k ch ≠ Ret r.
Proof.
  unfold cachehash_get, judy_get. intros Hj H. inv_M.
Qed.

(** X6. No sequence of [has], [get], [put] and [evict_if_full] that
    returns changes the cache [cachehash_init] made: the struct at the end
    is the one that was created. *)
Theorem created_cache_never_changes rm maxitems cb ch0 ops u ch :
  cachehash_init maxitems cb = Ret ch0 →
  run rm ops ch0 = Ret (u, ch) → ch = ch0.
Proof.
  intros Hinit. destruct (cachehash_init_Ret _ _ _ Hinit)
    as (Hj & _ & Hs & Hm & Hpos & _).
  induction ops as [|o ops IH]; simpl; intros H.
  - inv_M. done.
  - apply bind_Ret in H as ([] & ch1 & E & H).
    assert (ch1 = ch0) as ->; [|by apply IH].
    clear IH H Hinit.
    destruct o as [k|k|k v|]; simpl in E; inv_M;
      match goal with H : _ = Ret _ |- _ => rename H into E end.
    + by apply cachehash_has_unchanged in E.
    + by destruct (get_without_index _ _ _ Hj E).
    + by destruct (put_without_index _ _ _ _ _ Hj E).
    + rewrite evict_if_full_unneeded in E by lia. by simplify_eq.
Qed.

Lemma created_cache_never_changes_witness :
  cachehash_init 2 None = Ret created2
  ∧ run no_moves [EvictIfFull; EvictIfFull] created2 = Ret (tt, created2)
  ∧ created2 = created2.
Proof.
  split; [reflexivity|]. split; [reflexivity|].
  apply (created_cache_never_changes no_moves 2 None created2
           [EvictIfFull; EvictIfFull] tt created2); reflexivity.
Defined.

(** X5. On the cache [cachehash_init] returns, for every capacity,
    [has], [get] and [put] with a non-empty key fault, and so does
    [cachehash_free]: each reads [*ch->judy] through the NULL field. *)
Theorem created_cache_faults rm maxitems cb ch k v fuel cb' :
  cachehash_init maxitems cb = Ret ch → k ≠ EmptyString →
  cachehash_has k ch = Fault ∧ cachehash_get k ch = Fault
  ∧ cachehash_put rm k v ch = Fault
  ∧ cachehash_free fuel ch cb' = Some Fault.
Proof.
  intros Hinit Hk.
  destruct (lookup_word_fault_get k ch 0) as [Hg Hh]; [|done|].
  { left. apply cachehash_init_Ret in Hinit as (Hj & _).
    unfold index_lookup. by rewrite Hj. }
  repeat split; try done.
  - by eapply put_on_created_faults.
  - by eapply free_on_created_faults.
Qed.

Lemma created_cache_faults_witness :
  cachehash_init 2 None = Ret created2 ∧ "A" ≠ EmptyString
  ∧ cachehash_has "A" created2 = Fault ∧ cachehash_get "A" created2 = Fault
  ∧ cachehash_put no_moves "A" (Handle 1) created2 = Fault
  ∧ cachehash_free 3 created2 (Some 9%nat) = Some Fault.
Proof.
  split; [reflexivity|]. split; [discriminate|].
  apply (created_cache_faults no_moves 2 None created2 "A" (Handle 1) 3
           (Some 9%nat)); [reflexivity|discriminate].
Defined.

(** ** The arena [cachehash_init] builds *)

Lemma lookup_foldl_link_middle len a nodes j :
  foldl link_middle nodes (seq a len) !! j
  = if decide (a ≤ j < a + len) then linked j <$> nodes !! j else nodes !! j.
Proof.
  revert a nodes. induction len as [|len IH]; intros a nodes; simpl.
  - case_decide; [lia|done].
  - rewrite IH. unfold link_middle at 1 2.
    rewrite !list_lookup_alter.
    repeat case_decide; simplify_eq; try lia; try done.
    destruct (nodes !! j); done.
Qed.

Lemma init_lookup maxitems cb ch i :
  cachehash_init maxitems cb = Ret ch →
  (2 ≤ maxitems)%Z → (0 ≤ i < maxitems)%Z →
  malloced ch !! Z.to_nat i = Some (fresh_node maxitems i).
Proof.
  intros Hret Hn Hi. unfold cachehash_init in Hret.
  destruct (bool_decide (maxitems ≤ 0)%Z); [done|].
  destruct (bool_decide (2 ^ 31 < maxitems)%Z); [done|].
  simplify_eq/=.
  rewrite list_lookup_alter, !lookup_foldl_link_middle, !list_lookup_alter.
  rewrite !lookup_replicate_2 by lia.
  unfold fresh_node.
  repeat case_decide; repeat case_bool_decide; try lia;
    unfold linked, set_next, set_prev, calloc_node; simpl;
    repeat (f_equal; try lia).
Qed.

(** X1. For a capacity of at least 2, [cachehash_init] builds an arena of
    exactly [maxitems] empty slots chained in index order: slot [i] has
    [next = &nodes[i+1]] (NULL for the last) and [prev = &nodes[i-1]]
    (NULL for the first); [start] is slot 0 and [end] the last slot. *)
Theorem init_arena maxitems cb ch :
  cachehash_init maxitems cb = Ret ch → (2 ≤ maxitems)%Z →
  malloced ch = fresh_node maxitems <$> seqZ 0 maxitems
  ∧ start ch = Slot 0 ∧ end_ ch = Slot (maxitems - 1).
Proof.
  intros Hinit Hn.
  pose proof (cachehash_init_Ret _ _ _ Hinit) as (_ & _ & _ & _ & _ & He & Hlen).
  split; [|split; [|done]].
  - apply list_eq. intros j. rewrite list_lookup_fmap.
    destruct (decide (j < Z.to_nat maxitems)) as [Hj|Hj].
    + rewrite lookup_seqZ_lt by lia. simpl.
      pose proof (init_lookup _ _ _ (Z.of_nat j) Hinit Hn ltac:(lia)) as Hl.
      rewrite Nat2Z.id in Hl. by rewrite Z.add_0_l.
    + rewrite lookup_seqZ_ge by lia. simpl.
      apply lookup_ge_None. lia.
  - unfold cachehash_init in Hinit. repeat case_bool_decide; by simplify_eq.
Qed.

Lemma init_arena_witness :
  cachehash_init 3 (Some 7%nat) = Ret created3 ∧ (2 ≤ 3)%Z
  ∧ malloced created3 = fresh_node 3 <$> seqZ 0 3
  ∧ start created3 = Slot 0 ∧ end_ created3 = Slot (3 - 1).
Proof.
  split; [reflexivity|]. split; [lia|].
  apply (init_arena 3 (Some 7%nat) created3); [reflexivity|lia].
Defined.

(** ** [cachehash_free]: what the walk releases *)

(** X24. When the index can be read and following [next] from [start]
    visits the slots [nds] and then a slot whose [next] is NULL,
    [cachehash_free] (given fuel for the walk) returns after calling the
    release callback once for each occupied slot of [nds], in list order,
    with its [data]; the last slot is not drained. *)
Theorem free_drains_all_but_last fuel ch cb m nds last :
  judy ch = Some (JArray m) →
  next_path (malloced ch) (start ch) nds last →
  length nds < fuel →
  cachehash_free fuel ch cb = Some (Ret (release_calls cb nds)).
Proof.
  intros Hj Hpath. unfold cachehash_free. rewrite Hj.
  generalize (start ch) Hpath. clear Hpath. intros p Hpath. revert fuel.
  induction Hpath as [p i nd Hi Hnd Hnx | p i nd nds last Hi Hnd Hnx Hpath IH];
    intros fuel Hfuel; (destruct fuel as [|fuel]; [simpl in Hfuel; lia|]);
    simpl; rewrite Hi; simpl; rewrite Hnd.
  - by rewrite Hnx.
  - destruct (next nd) eqn:E; [done| |]; simpl;
      rewrite IH by (simpl in Hfuel; lia); done.
Qed.

Lemma init_path maxitems cb ch :
  cachehash_init maxitems cb = Ret ch → (2 ≤ maxitems)%Z →
  ∀ d i, i + d = Z.to_nat maxitems - 1 →
    ∃ last, malloced ch !! (Z.to_nat maxitems - 1) = Some last
      ∧ next_path (malloced ch) (Slot (Z.of_nat i))
          (take d (drop i (malloced ch))) last.
Proof.
  intros Hinit Hn.
  pose proof (cachehash_init_Ret _ _ _ Hinit) as (_ & _ & _ & _ & _ & _ & Hlen).
  assert (Hslot : ∀ i, i < Z.to_nat maxitems →
            slot_of (malloced ch) (Slot (Z.of_nat i)) = Some i).
  { intros i Hi. simpl. rewrite bool_decide_eq_true_2 by lia.
    f_equal. lia. }
  induction d as [|d IH]; intros i Hi.
  - pose proof (init_lookup _ _ _ (Z.of_nat i) Hinit Hn ltac:(lia)) as Hl.
    rewrite Nat2Z.id in Hl. unfold fresh_node in Hl.
    rewrite bool_decide_eq_true_2 in Hl by lia.
    eexists. split; [by replace (Z.to_nat maxitems - 1) with i by lia|].
    simpl. eapply next_path_last; [apply Hslot; lia|exact Hl|done].
  - pose proof (init_lookup _ _ _ (Z.of_nat i) Hinit Hn ltac:(lia)) as Hl.
    rewrite Nat2Z.id in Hl. unfold fresh_node in Hl.
    rewrite bool_decide_eq_false_2 in Hl by lia.
    destruct (IH (S i) ltac:(lia)) as (last & Hlast & Hp).
    exists last. split; [done|].
    rewrite (drop_S _ _ _ Hl). simpl.
    eapply next_path_step; [apply Hslot; lia|exact Hl|done|].
    simpl. by replace (Z.of_nat i + 1)%Z with (Z.of_nat (S i)) by lia.
Qed.

(** X2. For a capacity of at least 2, following [next] from [start] in
    the cache [cachehash_init] returns visits every slot once, in index
    order, and stops at the slot [end] points to; every slot is empty. *)
Theorem init_chain maxitems cb ch :
  cachehash_init maxitems cb = Ret ch → (2 ≤ maxitems)%Z →
  ∃ last,
    next_path (malloced ch) (start ch)
      (take (Z.to_nat maxitems - 1) (malloced ch)) last
    ∧ slot_of (malloced ch) (end_ ch) = Some (Z.to_nat maxitems - 1)
    ∧ malloced ch !! (Z.to_nat maxitems - 1) = Some last
    ∧ length (malloced ch) = Z.to_nat maxitems
    ∧ Forall (λ nd, key nd = None ∧ data nd = NULL) (malloced ch).
Proof.
  intros Hinit Hn.
  pose proof (cachehash_init_Ret _ _ _ Hinit) as (_ & _ & _ & _ & _ & He & Hlen).
  destruct (init_path _ _ _ Hinit Hn (Z.to_nat maxitems - 1) 0 ltac:(lia))
    as (last & Hlast & Hp).
  exists last. repeat split; try done.
  - assert (start ch = Slot 0) as ->; [|done].
    unfold cachehash_init in Hinit. repeat case_bool_decide; by simplify_eq.
  - rewrite He. simpl. rewrite bool_decide_eq_true_2 by lia. f_equal. lia.
  - apply Forall_lookup. intros j nd Hj.
    pose proof (lookup_lt_Some _ _ _ Hj).
    pose proof (init_lookup _ _ _ (Z.of_nat j) Hinit Hn ltac:(lia)) as Hl.
    rewrite Nat2Z.id in Hl. by simplify_eq.
Qed.

Lemma init_chain_witness :
  cachehash_init 3 None = Ret created3 ∧ (2 ≤ 3)%Z
  ∧ ∃ last,
      next_path (malloced created3) (start created3)
        (take (Z.to_nat 3 - 1) (malloced created3)) last
      ∧ slot_of (malloced created3) (end_ created3) = Some (Z.to_nat 3 - 1)
      ∧ malloced created3 !! (Z.to_nat 3 - 1) = Some last
      ∧ length (malloced created3) = Z.to_nat 3
      ∧ Forall (λ nd, key nd = None ∧ data nd = NULL) (malloced created3).
Proof.
  split; [reflexivity|]. split; [lia|].
  apply (init_chain 3 None created3); [reflexivity|lia].
Defined.

(** X4. On the cache [cachehash_init] returns for capacity 1, whatever
    the [judy] field holds, a [put] of a non-empty key faults.  (The only
    slot has [next = &nodes[1]] and [prev = &nodes[-1]], and [use] writes
    through that [prev].) *)
Theorem put_capacity_one_faults rm cb ch j k v :
  cachehash_init 1 cb = Ret ch → k ≠ EmptyString →
  cachehash_put rm k v (with_judy j ch) = Fault.
Proof.
  intros Hinit Hk. vm_compute in Hinit. simplify_eq.
  unfold cachehash_put. rewrite (eqb_empty_false k Hk). reflexivity.
Qed.

Lemma put_capacity_one_faults_witness :
  ∃ ch, cachehash_init 1 None = Ret ch ∧ "A" ≠ EmptyString
    ∧ cachehash_put no_moves "A" (Handle 1)
        (with_judy (Some (JArray ∅)) ch) = Fault.
Proof.
  eexists. split; [reflexivity|]. split; [discriminate|].
  apply (put_capacity_one_faults no_moves None _ (Some (JArray ∅)) "A"
           (Handle 1)); [reflexivity|discriminate].
Defined.

(** ** Pointers stay inside the arena *)

Lemma arena_links_alter_to f i arena :
  (∀ nd, link_ok arena (next nd) → link_ok arena (prev nd) →
         link_ok arena (next (f nd)) ∧ link_ok arena (prev (f nd))) →
  Forall (λ n, link_ok arena (next n) ∧ link_ok arena (prev n)) arena →
  Forall (λ n, link_ok (alter f i arena) (next n)
               ∧ link_ok (alter f i arena) (prev n)) (alter f i arena).
Proof.
  intros Hf Hall. apply Forall_alter.
  - eapply Forall_impl; [exact Hall|].
    intros n [? ?]. by rewrite !link_ok_alter.
  - intros n _. rewrite !link_ok_alter. intros [? ?]. by apply Hf.
Qed.

Lemma bind_Fault {A B} (m : M A) (f : A → M B) ch :
  (m ≫= f) ch = Fault →
  m ch = Fault ∨ ∃ a ch', m ch = Ret (a, ch') ∧ f a ch' = Fault.
Proof.
  unfold mbind, M_bind.
  destruct (m ch) as [[a ch']| |]; naive_solver.
Qed.

Lemma use_list_ok n ch u ch' :
  list_ok ch → use n ch = Ret (u, ch') → list_ok ch'.
Proof.
  intros [[Hend Hall] Hstart] H. unfold use in H.
  inv_M_cases; norm_slots; [done| |].
  all: match goal with
       | Hn : ?l !! _ = Some _, Hall : Forall _ ?l |- _ =>
           destruct (Forall_lookup_1 _ _ _ _ Hall Hn) as [Hnext Hprev]
       end.
  all: match goal with
       | Hs : is_Some (slot_of ?l (start ?c)) |- _ =>
           assert (Hst : link_ok l (start c)) by (by right)
       end.
  all: split; [split|]; simpl; rewrite ?slot_of_alter; eauto.
  all: repeat (apply arena_links_alter_to;
               [intros ?; simpl; rewrite ?link_ok_alter; intros ? ?;
                split; first [assumption | by left]|]);
       exact Hall.
Qed.

Lemma evict_if_full_list_ok ch ev ch1 :
  list_ok ch → cachehash_evict_if_full ch = Ret (ev, ch1) → list_ok ch1.
Proof.
  intros [Hok Hstart] H. apply evict_if_full_inv in H
    as [(Hne & -> & ->)|(Hfull & m & i & nd & w & ? & Hi & ? & ? & -> & ->)];
    [done|].
  split.
  - assert (Hok0 : links_ok
              (with_judy (Some (JArray (delete (key_bytes nd) m))) ch)) by done.
    pose proof (links_ok_payload (set_data NULL) i _
                  (set_data_keeps_links _) Hok0) as Hok1.
    pose proof (links_ok_payload (set_key None) i _
                  (set_key_keeps_links _) Hok1) as Hok2.
    exact Hok2.
  - simpl. by rewrite !slot_of_alter.
Qed.

Lemma put_list_ok rm k v ch calls ch' :
  list_ok ch → cachehash_put rm k v ch = Ret (calls, ch') → list_ok ch'.
Proof.
  intros Hok H.
  apply put_Ret_inv in H
    as (ev & ch1 & e & ch3 & _ & Hev & _ & He & Huse & Hidx).
  apply (evict_if_full_list_ok _ _ _ Hok) in Hev as [Hok1 Hs1].
  apply use_list_ok in Huse.
  - apply put_index_inv in Hidx
      as (m & Hjm & [(? & ->)|[(? & ? & ->)|[(? & ? & ? & ->)|(? & ? & ? & ->)]]]);
      exact Huse.
  - split.
    + pose proof (links_ok_payload (set_key (Some k)) e _
                    (set_key_keeps_links _) Hok1) as Hok2.
      pose proof (links_ok_payload (set_data v) e _
                    (set_data_keeps_links _) Hok2) as Hok3.
      exact Hok3.
    + simpl. by rewrite !slot_of_alter.
Qed.

(** X23. The operations keep the list walkable: from a cache where
    [start] and [end] are slots and every [next] and [prev] is a slot or
    NULL, every sequence of [has], [get], [put] and [evict_if_full] that
    returns ends in such a cache. *)
Theorem list_ok_invariant rm ops ch u ch' :
  list_ok ch → run rm ops ch = Ret (u, ch') → list_ok ch'.
Proof.
  revert ch. induction ops as [|o ops IH]; simpl; intros ch Hok H.
  - inv_M. done.
  - apply bind_Ret in H as ([] & ch1 & E & H).
    apply (IH ch1); [|done]. clear IH H.
    destruct o as [k|k|k v|]; simpl in E; inv_M;
      match goal with H : _ = Ret _ |- _ => rename H into E end.
    + by apply cachehash_has_unchanged in E as ->.
    + unfold cachehash_get in E. inv_M.
      match goal with H : judy_get _ _ = Ret _ |- _ =>
        apply judy_get_unchanged in H as -> end.
      inv_M_cases; [done|].
      match goal with H : use _ _ = Ret _ |- _ =>
        by apply (use_list_ok _ _ _ _ Hok) in H end.
    + by eapply put_list_ok.
    + by eapply evict_if_full_list_ok.
Qed.

(** X3. For a capacity of at least 2, in the cache [cachehash_init]
    returns [start] and [end] are addresses of slots of the arena, and
    each [next] and [prev] is NULL or the address of a slot. *)
Theorem init_list_ok maxitems cb ch :
  cachehash_init maxitems cb = Ret ch → (2 ≤ maxitems)%Z → list_ok ch.
Proof.
  intros Hinit Hn.
  pose proof (cachehash_init_Ret _ _ _ Hinit) as (_ & _ & _ & _ & _ & He & Hlen).
  assert (Hs : start ch = Slot 0).
  { unfold cachehash_init in Hinit. repeat case_bool_decide; by simplify_eq. }
  assert (Hslot : ∀ z, (0 ≤ z < maxitems)%Z →
            is_Some (slot_of (malloced ch) (Slot z))).
  { intros z Hz. simpl. rewrite bool_decide_eq_true_2 by lia. by eexists. }
  split; [split|].
  - rewrite He. apply Hslot. lia.
  - apply Forall_lookup. intros j nd Hj.
    pose proof (lookup_lt_Some _ _ _ Hj).
    pose proof (init_lookup _ _ _ (Z.of_nat j) Hinit Hn ltac:(lia)) as Hl.
    rewrite Nat2Z.id in Hl. simplify_eq. unfold fresh_node. simpl. clear Hj.
    split; case_bool_decide; first [by left | right; apply Hslot; lia].
  - rewrite Hs. apply Hslot. lia.
Qed.

Lemma init_list_ok_witness :
  cachehash_init 2 None = Ret created2 ∧ (2 ≤ 2)%Z ∧ list_ok created2.
Proof.
  split; [reflexivity|]. split; [lia|].
  apply (init_list_ok 2 None created2); [reflexivity|lia].
Defined.

(** X22. On a cache where [start] and [end] are slots, every [next] and
    [prev] is a slot or NULL, and the index can be read, [put] never
    faults: it returns or stops on an assertion. *)
Theorem put_returns_or_aborts rm k v ch m :
  list_ok ch → judy ch = Some (JArray m) →
  cachehash_put rm k v ch ≠ Fault.
Proof.
  intros [Hok Hstart] Hj.
  destruct (decide (k = EmptyString)) as [->|Hk]; [done|].
  assert (Hput : ∀ ev ch1 m1,
            cachehash_evict_if_full ch = Ret (ev, ch1) →
            links_ok ch1 → judy ch1 = Some (JArray m1) →
            cachehash_put rm k v ch ≠ Fault).
  { clear Hok Hj. intros ev ch1 m1 Hev [[ie Hie] Hall] Hj1.
    destruct (slot_of_Some _ _ _ Hie) as [_ [nd Hnd]].
    destruct (Forall_lookup_1 _ _ _ _ Hall Hnd) as [Hnext Hprev].
    unfold cachehash_put.
    rewrite (eqb_empty_false k Hk). simpl negb. rewrite assert_true_bind.
    rewrite (bind_eq _ _ _ _ _ Hev).
    rewrite (bind_eq _ _ _ (evict_cb ch1) ch1) by done.
    rewrite (bind_eq _ _ _ (end_ ch1) ch1) by done.
    rewrite (bind_eq _ _ _ _ _ (wr_eq _ _ _ _ Hie)).
    set (ch2 := with_malloced _ ch1).
    assert (Hie2 : slot_of (malloced ch2) (end_ ch1) = Some ie)
      by (unfold ch2; by rewrite malloced_with_malloced, slot_of_alter).
    rewrite (bind_eq _ _ _ _ _ (wr_eq _ _ _ _ Hie2)).
    set (ch3 := with_malloced _ ch2).
    assert (Hie3 : slot_of (malloced ch3) (end_ ch1) = Some ie)
      by (unfold ch3; by rewrite malloced_with_malloced, slot_of_alter).
    assert (Hnd3 : malloced ch3 !! ie
                   = Some (set_data v (set_key (Some k) nd))).
    { unfold ch3, ch2. rewrite !malloced_with_malloced.
      by rewrite !list_lookup_alter_eq, Hnd. }
    destruct (use_returns (end_ ch1) ch3 ie _ Hie3 Hnd3) as [ch4 Huse].
    { unfold ch3, ch2. rewrite !malloced_with_malloced.
      by rewrite !link_ok_alter. }
    { unfold ch3, ch2. rewrite !malloced_with_malloced.
      by rewrite !link_ok_alter. }
    rewrite (bind_eq _ _ _ _ _ Huse).
    apply use_frame in Huse as (Hj4 & _).
    rewrite (bind_eq _ _ _ tt _) by reflexivity.
    set (ch5 := with_currsize _ ch4).
    assert (Hj5 : judy ch5 = Some (JArray m1))
      by (unfold ch5; simpl; by rewrite Hj4).
    intros Hf. apply bind_Fault in Hf as [Hf | (a & c & E & Hf)]; [|done].
    unfold put_index in Hf.
    rewrite (bind_eq _ _ ch5 m1 ch5) in Hf
      by (unfold rd_judy; by rewrite Hj5).
    assert (Hj4' : judy ch4 = Some (JArray m1)) by exact Hj5.
    destruct (m1 !! k) as [w|].
    - destruct w;
        unfold mbind, M_bind, assert, abort, mret, M_ret, wr_judy in Hf;
        simpl in Hf; rewrite ?Hj4' in Hf; done.
    - case_bool_decide; [done|].
      destruct (rm m1 k); [done|]. unfold wr_judy in Hf.
      simpl in Hf. by rewrite Hj4' in Hf. }
  destruct (decide (currsize ch = maxsize ch)) as [Hfull|Hne].
  - destruct (evict_outcome ch m Hok Hj)
      as [Hab | (ev & ch1 & Hret & Hok1 & Hj1)].
    + unfold cachehash_put.
      rewrite (eqb_empty_false k Hk). simpl negb. rewrite assert_true_bind.
      rewrite (bind_eq_Abort _ _ ch); [done|].
      by rewrite (evict_if_full_full ch Hfull).
    + eapply Hput; [|exact Hok1|exact Hj1].
      by rewrite (evict_if_full_full ch Hfull).
  - eapply Hput; [by apply evict_if_full_unneeded|exact Hok|exact Hj].
Qed.

Lemma filled2_list_ok : list_ok filled2.
Proof.
  split; [split|]; [by eexists| |by eexists]. simpl.
  repeat (constructor; [split; first [by left | right; by eexists]|]).
  constructor.
Qed.

Lemma put_returns_or_aborts_witness :
  list_ok filled2
  ∧ judy filled2 = Some (JArray (<["A" := Slot 0]> (<["B" := Slot 1]> ∅)))
  ∧ cachehash_put no_moves "B" (Handle 3) filled2 ≠ Fault.
Proof.
  split; [exact filled2_list_ok|]. split; [reflexivity|].
  apply (put_returns_or_aborts no_moves "B" (Handle 3) filled2
           (<["A" := Slot 0]> (<["B" := Slot 1]> ∅)));
    [exact filled2_list_ok|reflexivity].
Defined.

Lemma list_ok_invariant_witness :
  list_ok filled2
  ∧ ∃ ch', run no_moves [Get "A"; EvictIfFull; Put "C" (Handle 3)] filled2
           = Ret (tt, ch')
      ∧ list_ok ch'.
Proof.
  split; [exact filled2_list_ok|].
  eexists. split; [vm_compute; reflexivity|].
  eapply (list_ok_invariant no_moves
           [Get "A"; EvictIfFull; Put "C" (Handle 3)] filled2 tt _);
    [exact filled2_list_ok|vm_compute; reflexivity].
Defined.

Lemma free_drains_all_but_last_witness :
  judy filled2 = Some (JArray (<["A" := Slot 0]> (<["B" := Slot 1]> ∅)))
  ∧ next_path (malloced filled2) (start filled2)
      [ {| next := Slot 0; prev := NULL; key := Some "B"; data := Handle 2 |} ]
      {| next := NULL; prev := Slot 1; key := Some "A"; data := Handle 1 |}
  ∧ cachehash_free 3 filled2 (Some 9%nat) = Some (Ret [(9%nat, Handle 2)]).
Proof.
  assert (Hp : next_path (malloced filled2) (start filled2)
      [ {| next := Slot 0; prev := NULL; key := Some "B"; data := Handle 2 |} ]
      {| next := NULL; prev := Slot 1; key := Some "A"; data := Handle 1 |}).
  { eapply (next_path_step _ _ 1); [reflexivity|reflexivity|discriminate|].
    eapply (next_path_last _ _ 0); reflexivity. }
  split; [reflexivity|]. split; [exact Hp|].
  apply (free_drains_all_but_last 3 filled2 (Some 9%nat) _ _ _ eq_refl Hp).
  simpl. lia.
Defined.

(** X25. Every value [cachehash_free] hands to the release callback is
    the [data] of an occupied slot whose [next] is not NULL, and the
    callback called is the one given: a slot that ends the list is never
    drained, however the list is linked. *)
Theorem free_never_releases_last fuel ch cb calls c v :
  cachehash_free fuel ch cb = Some (Ret calls) → (c, v) ∈ calls →
  cb = Some c
  ∧ ∃ nd, nd ∈ malloced ch ∧ next nd ≠ NULL ∧ is_Some (key nd)
      ∧ data nd = v.
Proof.
  unfold cachehash_free. intros H Hin.
  destruct (judy ch) as [[m|]|]; try done.
  destruct (free_walk_calls _ _ _ _ _ _ _ H Hin)
    as (nd & ? & ? & ? & ? & ?).
  split; [done|]. by exists nd.
Qed.

Lemma free_never_releases_last_witness :
  cachehash_free 3 filled2 (Some 9%nat) = Some (Ret [(9%nat, Handle 2)])
  ∧ (9%nat, Handle 2) ∈ [(9%nat, Handle 2)]
  ∧ Some 9%nat = Some 9%nat
  ∧ ∃ nd, nd ∈ malloced filled2 ∧ next nd ≠ NULL ∧ is_Some (key nd)
      ∧ data nd = Handle 2.
Proof.
  split; [reflexivity|]. split; [constructor|].
  apply (free_never_releases_last 3 filled2 (Some 9%nat)
           [(9%nat, Handle 2)] 9%nat (Handle 2)); [reflexivity|constructor].
Defined.

(** ** Duplicate keys on a cache whose index is empty *)

(** A [put] that returns on an empty index leaves it empty. *)
Lemma put_keeps_index_empty rm k v ch calls ch' :
  judy ch = Some (JArray ∅) →
  cachehash_put rm k v ch = Ret (calls, ch') →
  judy ch' = Some (JArray ∅).
Proof.
  intros Hj H.
  apply put_Ret_inv in H
    as (ev & ch1 & e & ch3 & _ & Hev & _ & _ & Huse & Hidx).
  apply evict_if_full_inv in Hev
    as [(Hne & -> & ->)|(Hfull & m & i' & nd' & w & ? & ? & ? & Hw & -> & ->)].
  - apply use_frame in Huse as (Hj3 & _). simpl in Hj3.
    apply put_index_inv in Hidx
      as (m & Hjm & [(Hk & ->)|[(? & ? & ->)|[(? & ? & ? & ->)|(? & ? & ? & ->)]]]);
      simpl in *; rewrite Hj3, Hj in Hjm; simplify_eq.
    by rewrite Hj3.
  - simplify_eq.
Qed.

(** The index of a cache is never filled: from an empty index, every
    sequence of operations that returns ends with an empty index. *)
Lemma run_keeps_index_empty rm ops ch u ch' :
  judy ch = Some (JArray ∅) →
  run rm ops ch = Ret (u, ch') →
  judy ch' = Some (JArray ∅).
Proof.
  revert ch. induction ops as [|o ops IH]; simpl; intros ch Hj H.
  - inv_M. done.
  - apply bind_Ret in H as ([] & ch1 & E & H).
    apply (IH ch1); [|done]. clear IH H.
    destruct o as [k|k|k v|]; simpl in E; inv_M;
      match goal with H : _ = Ret _ |- _ => rename H into E end.
    + by apply cachehash_has_unchanged in E as ->.
    + unfold cachehash_get in E. inv_M.
      match goal with H : judy_get _ _ = Ret _ |- _ =>
        apply judy_get_unchanged in H as -> end.
      inv_M_cases; [done|].
      match goal with H : use _ _ = Ret _ |- _ =>
        apply use_frame in H as (-> & _) end.
      done.
    + by eapply put_keeps_index_empty.
    + apply evict_if_full_inv in E
        as [(_ & _ & ->)|(_ & m & i & nd & w & ? & _ & _ & Hw & _)];
        [done|]. simplify_eq.
Qed.

(** On a cache that is not full, whose index is empty and whose list can
    be walked, [put] of any non-empty key returns: the assertion on the
    word [JHSI] yields never sees a key put before, so a key that sits in
    a slot already is put again. *)
Lemma put_on_empty_index_returns rm k v ch :
  links_ok ch → judy ch = Some (JArray ∅) →
  currsize ch ≠ maxsize ch → k ≠ EmptyString →
  ∃ ch', cachehash_put rm k v ch = Ret ([], ch')
    ∧ judy ch' = Some (JArray ∅).
Proof.
  intros [[ie Hie] Hall] Hj Hne Hk.
  destruct (slot_of_Some _ _ _ Hie) as [_ [nd Hnd]].
  destruct (Forall_lookup_1 _ _ _ _ Hall Hnd) as [Hnext Hprev].
  unfold cachehash_put.
  rewrite (eqb_empty_false k Hk). simpl negb. rewrite assert_true_bind.
  rewrite (bind_eq _ _ _ _ _ (evict_if_full_unneeded ch Hne)).
  rewrite (bind_eq _ _ _ (evict_cb ch) ch) by done.
  rewrite (bind_eq _ _ _ (end_ ch) ch) by done.
  rewrite (bind_eq _ _ _ _ _ (wr_eq _ _ _ _ Hie)).
  set (ch2 := with_malloced _ ch).
  assert (Hie2 : slot_of (malloced ch2) (end_ ch) = Some ie)
    by (unfold ch2; by rewrite malloced_with_malloced, slot_of_alter).
  rewrite (bind_eq _ _ _ _ _ (wr_eq _ _ _ _ Hie2)).
  set (ch3 := with_malloced _ ch2).
  assert (Hie3 : slot_of (malloced ch3) (end_ ch) = Some ie)
    by (unfold ch3; by rewrite malloced_with_malloced, slot_of_alter).
  assert (Hnd3 : malloced ch3 !! ie
                 = Some (set_data v (set_key (Some k) nd))).
  { unfold ch3, ch2. rewrite !malloced_with_malloced.
    by rewrite !list_lookup_alter_eq, Hnd. }
  destruct (use_returns (end_ ch) ch3 ie _ Hie3 Hnd3) as [ch4 Huse].
  { unfold ch3, ch2. rewrite !malloced_with_malloced.
    by rewrite !link_ok_alter. }
  { unfold ch3, ch2. rewrite !malloced_with_malloced.
    by rewrite !link_ok_alter. }
  rewrite (bind_eq _ _ _ _ _ Huse).
  apply use_frame in Huse as (Hj4 & _).
  rewrite (bind_eq _ _ _ tt _) by reflexivity.
  set (ch5 := with_currsize _ ch4).
  assert (Hj5 : judy ch5 = Some (JArray ∅))
    by (unfold ch5; simpl; by rewrite Hj4).
  assert (Hidx : put_index rm k v ch5 = Ret (tt, ch5)).
  { unfold put_index.
    rewrite (bind_eq _ _ ch5 ∅ ch5) by (unfold rd_judy; by rewrite Hj5).
    rewrite lookup_empty. by rewrite bool_decide_eq_true_2. }
  rewrite (bind_eq _ _ _ _ _ Hidx).
  exists ch5. split; [|done].
  unfold mret, M_ret. by destruct (evict_cb ch).
Qed.
